(** * inidirici.py: a depth-bounded website mirroring tool

    A shallow embedding of [src/inidirici.py] and the properties its
    specification states about it.

    Layout of the development:
    - [pystr]      the methods of Python's [str] that the program calls;
    - [posixpath]  the functions of [os.path] (POSIX flavour) that it calls;
    - the program itself, function by function, under the names of the source;
    - [Example]    a small site, used to run the program on concrete inputs;
    - [Pool]       the worker threads and the shared queue, as a step relation;
    - the notions the properties are stated with, and the properties.

    Python strings are modelled as [string] (sequences of 8-bit characters),
    Python integers as [Z], the [visited] set as a [gset string], dictionaries
    (tag attributes, the files on disk) as [gmap]s. *)

From stdpp Require Import base strings list gmap.
From Stdlib Require Import Ascii ZArith Lia.

Local Open Scope string_scope.
Local Open Scope Z_scope.

(** ** Methods of [str] *)

Module pystr.

(** [s.lstrip(c)] for a one-character [c]. *)
Fixpoint lstrip (c : ascii) (s : string) : string :=
  match s with
  | String a s' => if Ascii.eqb a c then lstrip c s' else s
  | EmptyString => EmptyString
  end.

(** [s.rstrip(c)] for a one-character [c]. *)
Fixpoint rstrip (c : ascii) (s : string) : string :=
  match s with
  | String a s' =>
      match rstrip c s' with
      | EmptyString => if Ascii.eqb a c then EmptyString else String a EmptyString
      | r => String a r
      end
  | EmptyString => EmptyString
  end.

(** [s.startswith(p)]. *)
Fixpoint startswith (s p : string) {struct p} : bool :=
  match p, s with
  | EmptyString, _ => true
  | String b p', String a s' => Ascii.eqb a b && startswith s' p'
  | String _ _, EmptyString => false
  end.

(** [s.endswith(c)] for a one-character [c]. *)
Fixpoint endswith (s : string) (c : ascii) : bool :=
  match s with
  | EmptyString => false
  | String a EmptyString => Ascii.eqb a c
  | String _ s' => endswith s' c
  end.

(** [s.split(c)]: always at least one field. *)
Fixpoint split (c : ascii) (s : string) : list string :=
  match s with
  | EmptyString => [EmptyString]
  | String a s' =>
      if Ascii.eqb a c then EmptyString :: split c s'
      else match split c s' with
           | w :: ws => String a w :: ws
           | [] => [String a EmptyString]
           end
  end.

(** [sep.join(l)]. *)
Fixpoint join (sep : string) (l : list string) : string :=
  match l with
  | [] => ""
  | [w] => w
  | w :: ws => w +:+ sep +:+ join sep ws
  end.

(** [s.rfind(c)]: the last index of [c] in [s], or [-1]. *)
Fixpoint rfind_from (c : ascii) (s : string) (i last : Z) : Z :=
  match s with
  | EmptyString => last
  | String a s' => rfind_from c s' (i + 1) (if Ascii.eqb a c then i else last)
  end.
Definition rfind (c : ascii) (s : string) : Z := rfind_from c s 0 (-1).

(** The slices [s[:i]], [s[i:]] and [s[i:j]] for [0 <= i]. *)
Definition slice_to (s : string) (i : Z) : string :=
  String.substring 0 (Z.to_nat i) s.
Definition slice_from (s : string) (i : Z) : string :=
  String.substring (Z.to_nat i) (String.length s - Z.to_nat i)%nat s.
Definition slice (s : string) (i j : Z) : string :=
  String.substring (Z.to_nat i) (Z.to_nat j - Z.to_nat i)%nat s.

(** [s.replace(a, b)] for one-character [a] and [b]. *)
Fixpoint replace (a b : ascii) (s : string) : string :=
  match s with
  | EmptyString => EmptyString
  | String x s' => String (if Ascii.eqb x a then b else x) (replace a b s')
  end.

(** [s.lower()] on the ASCII range. *)
Definition lower_ascii (a : ascii) : ascii :=
  let n := nat_of_ascii a in
  if ((65 <=? n) && (n <=? 90))%nat then ascii_of_nat (n + 32) else a.
Fixpoint lower (s : string) : string :=
  match s with
  | EmptyString => EmptyString
  | String a s' => String (lower_ascii a) (lower s')
  end.

(** [sub in s] for two strings: [sub] occurs in [s]. *)
Fixpoint contains (sub s : string) : bool :=
  startswith s sub ||
  match s with
  | EmptyString => false
  | String _ s' => contains sub s'
  end.

(** [bool(s)]: the empty string is falsy. *)
Definition truthy (s : string) : bool :=
  match s with EmptyString => false | _ => true end.

(** [c.isspace()] for the first 256 code points: tab to carriage return,
    the four separators, the space, next-line and the no-break space. *)
Definition isspace (a : ascii) : bool :=
  let n := nat_of_ascii a in
  ((9 <=? n) && (n <=? 13) || (28 <=? n) && (n <=? 32) || (n =? 133) || (n =? 160))%nat.

Fixpoint lstrip_space (s : string) : string :=
  match s with
  | String a s' => if isspace a then lstrip_space s' else s
  | EmptyString => EmptyString
  end.

Fixpoint rstrip_space (s : string) : string :=
  match s with
  | String a s' =>
      match rstrip_space s' with
      | EmptyString => if isspace a then EmptyString else String a EmptyString
      | r => String a r
      end
  | EmptyString => EmptyString
  end.

(** [s.strip()]. *)
Definition strip (s : string) : string := rstrip_space (lstrip_space s).

(** The line boundaries of [str.splitlines] among the first 256 code points,
    the carriage return apart: line feed, vertical tab, form feed, the file,
    group and record separators and next-line. *)
Definition linebreak (a : ascii) : bool :=
  let n := nat_of_ascii a in
  ((10 <=? n) && (n <=? 12) || (28 <=? n) && (n <=? 30) || (n =? 133))%nat.

(** The loop of [splitlines]: [line] is the line read so far, reversed;
    [after_cr] says that the last character was a carriage return, which a
    line feed coming next belongs to. *)
Fixpoint splitlines_from (line : string) (after_cr : bool) (s : string) : list string :=
  match s with
  | EmptyString =>
      match line with
      | EmptyString => []
      | _ => [String.rev line]
      end
  | String a s' =>
      if after_cr && Ascii.eqb a "010" then splitlines_from line false s'
      else if Ascii.eqb a "013" then String.rev line :: splitlines_from "" true s'
      else if linebreak a then String.rev line :: splitlines_from "" false s'
      else splitlines_from (String a line) false s'
  end.

(** [s.splitlines()]. *)
Definition splitlines (s : string) : list string := splitlines_from "" false s.

End pystr.

(** ** [os.path] on a POSIX system

    The program calls [os.path.join], [dirname], [splitext] and [relpath].
    They are the functions of CPython's [posixpath]; [relpath] goes through
    [abspath], which reads the working directory, so that one is a parameter
    here. *)

Module posixpath.

Definition sep : ascii := "/"%char.

(** [os.path.join(a, b)]. *)
Definition join (a b : string) : string :=
  if pystr.startswith b "/" then b
  else if negb (pystr.truthy a) || pystr.endswith a sep then a +:+ b
  else a +:+ "/" +:+ b.

Fixpoint all_sep (s : string) : bool :=
  match s with
  | EmptyString => true
  | String a s' => Ascii.eqb a sep && all_sep s'
  end.

(** [os.path.dirname(p)]. *)
Definition dirname (p : string) : string :=
  let i := pystr.rfind sep p + 1 in
  let head := pystr.slice_to p i in
  if pystr.truthy head && negb (all_sep head) then pystr.rstrip sep head
  else head.

(** The loop of [genericpath._splitext] that skips the leading dots of the
    last component: [fuel] bounds the distance to [dotIndex]. *)
Fixpoint splitext_scan (p : string) (dotIndex filenameIndex : Z) (fuel : nat)
  : string * string :=
  match fuel with
  | O => (p, "")
  | S fuel' =>
      if filenameIndex <? dotIndex then
        if negb (String.eqb (pystr.slice p filenameIndex (filenameIndex + 1)) ".")
        then (pystr.slice_to p dotIndex, pystr.slice_from p dotIndex)
        else splitext_scan p dotIndex (filenameIndex + 1) fuel'
      else (p, "")
  end.

(** [os.path.splitext(p)]. *)
Definition splitext (p : string) : string * string :=
  let sepIndex := pystr.rfind sep p in
  let dotIndex := pystr.rfind "."%char p in
  if dotIndex >? sepIndex
  then splitext_scan p dotIndex (sepIndex + 1) (String.length p)
  else (p, "").

(** The component loop of [os.path.normpath]; [new_comps] is kept reversed. *)
Fixpoint normpath_comps (initial_slashes : Z) (comps new_comps : list string)
  : list string :=
  match comps with
  | [] => rev new_comps
  | comp :: comps' =>
      if String.eqb comp "" || String.eqb comp "." then
        normpath_comps initial_slashes comps' new_comps
      else if negb (String.eqb comp "..")
              || ((initial_slashes =? 0) && bool_decide (new_comps = []))
              || match new_comps with
                 | last :: _ => String.eqb last ".."
                 | [] => false
                 end
      then normpath_comps initial_slashes comps' (comp :: new_comps)
      else normpath_comps initial_slashes comps' (tail new_comps)
  end.

(** [os.path.normpath(path)]. *)
Definition normpath (path : string) : string :=
  if negb (pystr.truthy path) then "."
  else
    let initial_slashes :=
      if pystr.startswith path "/" then
        if pystr.startswith path "//" && negb (pystr.startswith path "///")
        then 2 else 1
      else 0 in
    let comps := normpath_comps initial_slashes (pystr.split sep path) [] in
    let path' := pystr.join "/" comps in
    let path' :=
      if initial_slashes =? 2 then "//" +:+ path'
      else if initial_slashes =? 1 then "/" +:+ path'
      else path' in
    if pystr.truthy path' then path' else ".".

Definition isabs (s : string) : bool := pystr.startswith s "/".

(** [os.path.abspath(path)], with [os.getcwd()] passed as [cwd]. *)
Definition abspath (cwd path : string) : string :=
  if isabs path then normpath path else normpath (join cwd path).

(** The length of the common prefix of two lists of components, as
    [len(commonprefix([start_list, path_list]))] computes it. *)
Fixpoint commonprefix_len (l1 l2 : list string) : nat :=
  match l1, l2 with
  | x :: l1', y :: l2' => if String.eqb x y then S (commonprefix_len l1' l2') else O
  | _, _ => O
  end.

(** [os.path.relpath(path, start)]; [None] is the [ValueError] raised for
    an empty [path]. *)
Definition relpath (cwd path start : string) : option string :=
  if negb (pystr.truthy path) then None
  else
    let start_list :=
      filter (λ x, pystr.truthy x = true) (pystr.split sep (abspath cwd start)) in
    let path_list :=
      filter (λ x, pystr.truthy x = true) (pystr.split sep (abspath cwd path)) in
    let i := commonprefix_len start_list path_list in
    let rel_list :=
      (replicate (length start_list - i)%nat ".." ++ drop i path_list)%list in
    match rel_list with
    | [] => Some "."
    | _ => Some (pystr.join "/" rel_list)
    end.

End posixpath.

(** ** The program *)

(** [RESOURCE_TYPES] (source lines 25-28). *)
Definition RESOURCE_TYPES : list string :=
  [ ".css"; ".js"; ".png"; ".jpg"; ".jpeg"; ".gif"; ".svg"; ".woff"; ".woff2";
    ".ttf"; ".eot"; ".otf"; ".ico"; ".mp4"; ".webm"; ".ogg"; ".mp3"; ".wav";
    ".pdf" ].

(** The character class of the regular expression in [sanitize_filename]:
    backslash, slash, star, question mark, colon, double quote, less-than,
    greater-than and vertical bar (codes 92, 47, 42, 63, 58, 34, 60, 62, 124). *)
Definition invalid_char (a : ascii) : bool :=
  bool_decide (nat_of_ascii a ∈ [92; 47; 42; 63; 58; 34; 60; 62; 124]%nat).

(** [sanitize_filename] (source lines 33-35): [re.sub] replaces every
    character of the class by an underscore. *)
Fixpoint sanitize_filename (filename : string) : string :=
  match filename with
  | EmptyString => EmptyString
  | String a s => String (if invalid_char a then "_"%char else a) (sanitize_filename s)
  end.

(** ** What the program takes from its libraries *)

(** The six fields of [urllib.parse.ParseResult]. *)
Module urllib.
Record ParseResult := mkParseResult {
  scheme : string; netloc : string; path : string;
  params : string; query : string; fragment : string }.
End urllib.

(** A tag of the parsed document ([bs4.element.Tag]): its name and its
    attribute dictionary. An attribute value is a string, or a list of
    strings for the attributes BeautifulSoup splits on white space ([rel]
    and [rev] of [a] and [link], [class], ...). *)
Inductive attr_value := Str (s : string) | StrList (l : list string).

Record Tag := mkTag { tag_name : string; attrs : gmap string attr_value }.

(** What [requests.get] gives back. [ConnectionError] stands for any
    [RequestException] raised by the call itself. In a [Response],
    [content_length] is the header of that name read as an integer, [None]
    when the response has no such header, [chunks] is the body as
    [iter_content] yields it and [broken] says that the transport raises a
    [RequestException] once [chunks] have been read.  [BadLength r] is a
    response whose header [content-length] is there and does not read as an
    integer, so that [int] raises a [ValueError] on it (line 61); the field
    [content_length] of [r] is not looked at then. *)
Record Response := mkResponse {
  status_code : Z; content_length : option Z;
  chunks : list string; broken : bool }.

Inductive reply := ConnectionError | Reply (r : Response) | BadLength (r : Response).

(** [Response.raise_for_status] raises an [HTTPError] for the 4xx and 5xx. *)
Definition raise_for_status (r : Response) : bool :=
  (400 <=? status_code r) && (status_code r <? 600).

(** The world a run happens in: URL parsing and joining ([urllib.parse]), the
    remote site ([requests.get], a function of the URL since headers,
    timeout, TLS verification and proxies are the same for every request of
    a run), the HTML parser and printer ([bs4]) and the working directory.
    The parsed document is the list of its tags in document order, which is
    the order [find_all] lists them in.  File-system calls ([os.makedirs],
    [open]) are taken to succeed. *)
Record World := mkWorld {
  urlparse : string → urllib.ParseResult;
  urljoin : string → string → string;
  requests_get : string → reply;
  BeautifulSoup : string → list Tag;
  prettify : list Tag → string;
  getcwd : string }.

(** The arguments [parse_and_download] passes on unchanged to its callees and
    to itself. ([headers], [timeout], [verify_ssl] and [proxies] only reach
    [requests.get]; [base_url] is never read.) *)
Record Args := mkArgs {
  save_dir : string; delay : Z; max_depth : Z; max_size : Z;
  include_types : list string; follow_redirects : bool }.

(** An object on [download_queue]: the pair [(url, save_path)] of line 146,
    whose first component the worker compares with [None], or the bare
    [None] of line 268. *)
Inductive item := Pair (url : option string) (save_path : string) | PyNone.

(** The records written to the log file. *)
Inductive log_record :=
  | ErrorGetPage (url : string)        (* line 53 *)
  | WarningTooBig (url : string)       (* line 64 *)
  | InfoFileSaved (save_path : string) (* line 78 *)
  | ErrorSaveFile (url : string)       (* line 81 *)
  | InfoPageSaved (save_path : string) (* line 155 *).

(** The observable actions of the traversal, in the order they happen. *)
Inductive event :=
  | VisitedAdd (url : string)          (* line 100 *)
  | Get (url : string)                 (* line 49 *)
  | MakeDirs (path : string)           (* lines 114 and 142 *)
  | Put (url save_path : string)       (* line 146 *)
  | Open (save_path : string)          (* line 153 *)
  | Sleep (delay : Z)                  (* line 157 *).

(** The mutable state the traversal works on. [download_queue] holds the
    items in the order they were put; the traversal never reads it. *)
Record state := mkState {
  visited : gset string;
  download_queue : list item;
  files : gmap string string;
  log : list log_record;
  trace : list event }.

Definition initial_state : state := mkState ∅ [] ∅ [] [].

Definition emit (e : event) (st : state) : state :=
  mkState (visited st) (download_queue st) (files st) (log st) (trace st ++ [e])%list.
Definition logging (r : log_record) (st : state) : state :=
  mkState (visited st) (download_queue st) (files st) (log st ++ [r])%list (trace st).
Definition visited_add (url : string) (st : state) : state :=
  emit (VisitedAdd url)
    (mkState ({[url]} ∪ visited st) (download_queue st) (files st) (log st) (trace st)).
Definition queue_put (url save_path : string) (st : state) : state :=
  emit (Put url save_path)
    (mkState (visited st) (download_queue st ++ [Pair (Some url) save_path])%list
       (files st) (log st) (trace st)).
Definition write_file (save_path content : string) (st : state) : state :=
  emit (Open save_path)
    (mkState (visited st) (download_queue st) (<[save_path := content]> (files st))
       (log st) (trace st)).

(** [make_dirs] (lines 37-39). *)
Definition make_dirs (path : string) (st : state) : state := emit (MakeDirs path) st.

(** Exceptions that leave a function, and the outcome of a call: the model
    of a recursive function is given [fuel], and [OutOfFuel] is not an
    outcome of the program. *)
Inductive exn := TypeError | ValueError.

Inductive result (A : Type) :=
  | Return (a : A)
  | Raise (e : exn)
  | OutOfFuel.
Arguments Return {A} a.
Arguments Raise {A} e.
Arguments OutOfFuel {A}.

(** Sequencing: an exception (or the lack of fuel) ends the computation. *)
Global Instance result_bind : MBind result := λ A B k m,
  match m with
  | Return a => k a
  | Raise e => Raise e
  | OutOfFuel => OutOfFuel
  end.

Section Program.

Variable W : World.

(** [is_valid_url] (lines 41-44). *)
Definition is_valid_url (url : string) : bool :=
  let parsed := urlparse W url in
  pystr.truthy (urllib.netloc parsed) && pystr.truthy (urllib.scheme parsed).

(** [get_page] (lines 46-54): the body of the page, or [None] after
    logging when the request raised. *)
Definition get_page (url : string) (st : state) : option string * state :=
  let st := emit (Get url) st in
  match requests_get W url with
  | ConnectionError => (None, logging (ErrorGetPage url) st)
  | Reply response | BadLength response =>
      if raise_for_status response || broken response
      then (None, logging (ErrorGetPage url) st)
      else (Some (String.concat "" (chunks response)), st)
  end.

(** [save_file] (lines 56-82) on the files of the disk: the value it
    returns, the files afterwards and the record it logs.  The handler of
    line 80 catches a [RequestException] only: the [ValueError] that [int]
    raises at line 61 leaves the function, before any file is opened. *)
Definition save_file (url save_path : string) (max_size : Z)
    (fs : gmap string string) : result (bool * gmap string string * log_record) :=
  match requests_get W url with
  | ConnectionError => Return (false, fs, ErrorSaveFile url)
  | Reply response =>
      if raise_for_status response then Return (false, fs, ErrorSaveFile url)
      else
        let total_size := default 0 (content_length response) in
        if total_size >? max_size * 1024 * 1024
        then Return (false, fs, WarningTooBig url)
        else
          let save_path := sanitize_filename save_path in
          let fs := <[save_path := String.concat "" (chunks response)]> fs in
          if broken response then Return (false, fs, ErrorSaveFile url)
          else Return (true, fs, InfoFileSaved save_path)
  | BadLength response =>
      if raise_for_status response then Return (false, fs, ErrorSaveFile url)
      else Raise ValueError
  end.

Variable A : Args.

(** The dictionary [tags] (lines 118-126), in insertion order, which is the
    order [tags.items()] iterates in. *)
Definition tags : list (string * string) :=
  [ ("img", "src"); ("script", "src"); ("link", "href"); ("a", "href");
    ("video", "src"); ("audio", "src"); ("source", "src") ].

(** [not src] for the value of [resource.get(attr)]. *)
Definition not_src (src : option attr_value) : bool :=
  match src with
  | None => true
  | Some (Str s) => negb (pystr.truthy s)
  | Some (StrList l) => bool_decide (l = [])
  end.

(** ['nofollow' in resource.attrs.get('rel', [])]: membership in a list of
    tokens, or the substring test when [rel] is a plain string. *)
Definition nofollow (resource : Tag) : bool :=
  match attrs resource !! "rel" with
  | None => false
  | Some (StrList l) => bool_decide ("nofollow" ∈ l)
  | Some (Str s) => pystr.contains "nofollow" s
  end.

(** [x in l] for a list of strings. *)
Definition in_list (x : string) (l : list string) : bool := bool_decide (x ∈ l).

(** The destination computed for a resource at line 141. *)
Definition resource_path_of (resource_url : string) : string :=
  posixpath.join (save_dir A)
    (sanitize_filename (pystr.lstrip "/" (urllib.path (urlparse W resource_url)))).

(** The body of the inner loop (lines 130-150) for one [resource] of the
    page [url] saved at [save_path]; [recurse] is the recursive call of line
    150.  It returns the tag as the loop leaves it and the state. *)
Definition resource_step (recurse : string → Z → state → result state)
    (url save_path : string) (current_depth : Z) (tag attr : string)
    (resource : Tag) (st : state) : result (Tag * state) :=
  let src := attrs resource !! attr in
  if not_src src || nofollow resource then Return (resource, st)
  else
    match src with
    | Some (Str src) =>
        let resource_url := urljoin W url src in
        let resource_parsed_url := urlparse W resource_url in
        let resource_ext := (posixpath.splitext (urllib.path resource_parsed_url)).2 in
        if bool_decide (include_types A ≠ [])
           && negb (in_list (pystr.lower resource_ext) (include_types A))
        then Return (resource, st)
        else if in_list (pystr.lower resource_ext) RESOURCE_TYPES || String.eqb tag "a"
        then
          let resource_path := resource_path_of resource_url in
          let st := make_dirs (posixpath.dirname resource_path) st in
          if is_valid_url resource_url && bool_decide (resource_url ∉ visited st)
          then
            if in_list (pystr.lower resource_ext) RESOURCE_TYPES then
              let st := queue_put resource_url resource_path st in
              match posixpath.relpath (getcwd W) resource_path
                      (posixpath.dirname save_path) with
              | Some relative_path =>
                  let resource :=
                    mkTag (tag_name resource)
                      (<[attr := Str (pystr.replace "\" "/" relative_path)]>
                         (attrs resource)) in
                  Return (resource, st)
              | None => Raise ValueError
              end
            else if String.eqb tag "a" && follow_redirects A then
              st ← recurse resource_url (current_depth + 1) st;
              Return (resource, st)
            else Return (resource, st)
          else Return (resource, st)
        else Return (resource, st)
    | _ => Raise TypeError
    end.

(** [for resource in soup.find_all(tag)]: the tags named [tag], in document
    order; the body may assign to an attribute of the tag it is given. *)
Fixpoint for_find_all (body : Tag → state → result (Tag * state))
    (tag : string) (soup : list Tag) (st : state) : result (list Tag * state) :=
  match soup with
  | [] => Return ([], st)
  | resource :: rest =>
      if String.eqb (tag_name resource) tag then
        '(resource', st') ← body resource st;
        '(rest', st'') ← for_find_all body tag rest st';
        Return (resource' :: rest', st'')
      else
        '(rest', st') ← for_find_all body tag rest st;
        Return (resource :: rest', st')
  end.

(** [for tag, attr in tags.items()]. *)
Fixpoint for_tags (body : string → string → Tag → state → result (Tag * state))
    (items : list (string * string)) (soup : list Tag) (st : state)
  : result (list Tag * state) :=
  match items with
  | [] => Return (soup, st)
  | (tag, attr) :: items' =>
      '(soup', st') ← for_find_all (body tag attr) tag soup st;
      for_tags body items' soup' st'
  end.

(** The path a page is to be saved at (lines 106-113). *)
Definition page_save_path (url : string) : string :=
  let path := urllib.path (urlparse W url) in
  let path :=
    if pystr.endswith path "/" then path +:+ "index.html"
    else if negb (pystr.truthy (posixpath.splitext path).2) then path +:+ "/index.html"
    else path in
  posixpath.join (save_dir A) (pystr.lstrip "/" path).

(** [parse_and_download] (lines 93-157). Each recursive call is one level
    deeper, so [fuel] bounds the depth of the recursion. *)
Fixpoint parse_and_download_rec (fuel : nat) (url : string) (current_depth : Z)
    (st : state) : result state :=
  match fuel with
  | O => OutOfFuel
  | S fuel' =>
      if current_depth >? max_depth A then Return st
      else if bool_decide (url ∈ visited st) then Return st
      else
        let st := visited_add url st in
        match get_page url st with
        | (None, st) => Return st
        | (Some html_content, st) =>
            let save_path := page_save_path url in
            let st := make_dirs (posixpath.dirname save_path) st in
            let soup := BeautifulSoup W html_content in
            '(soup, st) ←
              for_tags
                (resource_step (parse_and_download_rec fuel') url save_path current_depth)
                tags soup st;
            let save_path := sanitize_filename save_path in
            let st := write_file save_path (prettify W soup) st in
            let st := logging (InfoPageSaved save_path) st in
            Return (emit (Sleep (delay A)) st)
        end
  end.

(** The recursion stops below [max_depth + 1], so this much fuel is never
    used up (see [parse_and_download_rec_total]). *)
Definition parse_and_download (url : string) (current_depth : Z) (st : state)
  : result state :=
  parse_and_download_rec (S (Z.to_nat (max_depth A + 1 - current_depth)))
    url current_depth st.

End Program.

(** ** An example site

    A concrete [World] to run the program in.  [urlparse] and [urljoin]
    follow the algorithms of CPython's [urllib.parse] for [http] and [https]
    URLs (without the cleaning of control characters and the validation of
    bracketed hosts); the site, its pages and their parse trees are given by
    tables. *)

Module Example.

(** [(s[:i], s[i:])] for the first index [i] whose character satisfies [p],
    or [(s, "")]. *)
Fixpoint break_at (p : ascii → bool) (s : string) : string * string :=
  match s with
  | EmptyString => (EmptyString, EmptyString)
  | String a s' =>
      if p a then (EmptyString, s)
      else let '(l, r) := break_at p s' in (String a l, r)
  end.

Definition is_char (c : ascii) (a : ascii) : bool := Ascii.eqb a c.

(** [s.partition(c)] without the separator: ([head], [tail]). *)
Definition partition (c : ascii) (s : string) : string * string :=
  let '(l, r) := break_at (is_char c) s in
  (l, match r with String _ r' => r' | EmptyString => EmptyString end).

Definition scheme_char (a : ascii) : bool :=
  let n := nat_of_ascii a in
  ((97 <=? n) && (n <=? 122) || (65 <=? n) && (n <=? 90)
   || (48 <=? n) && (n <=? 57) || (n =? 43) || (n =? 45) || (n =? 46))%nat.
Definition alpha (a : ascii) : bool :=
  let n := nat_of_ascii a in
  ((97 <=? n) && (n <=? 122) || (65 <=? n) && (n <=? 90))%nat.

Fixpoint forallb_string (p : ascii → bool) (s : string) : bool :=
  match s with
  | EmptyString => true
  | String a s' => p a && forallb_string p s'
  end.

(** The scheme of [urlsplit]: the text before the first colon when it is a
    non-empty run of scheme characters starting with a letter. *)
Definition split_scheme (default url : string) : string * string :=
  let '(l, r) := break_at (is_char ":") url in
  match l, r with
  | String a _, String _ rest =>
      if alpha a && forallb_string scheme_char l then (pystr.lower l, rest)
      else (default, url)
  | _, _ => (default, url)
  end.

Definition split_netloc (url : string) : string * string :=
  match url with
  | String "/" (String "/" rest) =>
      break_at (λ a, is_char "/" a || is_char "?" a || is_char "#" a) rest
  | _ => (EmptyString, url)
  end.

(** [_splitparams]: the parameters of the last path segment. *)
Definition splitparams (url : string) : string * string :=
  let i := pystr.rfind "/" url in
  let head := pystr.slice_to url (i + 1) in
  let last := pystr.slice_from url (i + 1) in
  let '(l, r) := partition ";" last in
  (head +:+ l, r).

Definition urlparse_with (default url : string) : urllib.ParseResult :=
  let '(scheme, url) := split_scheme default url in
  let '(netloc, url) := split_netloc url in
  let '(url, fragment) := partition "#" url in
  let '(url, query) := partition "?" url in
  let '(url, params) := splitparams url in
  urllib.mkParseResult scheme netloc url params query fragment.

Definition urlparse (url : string) : urllib.ParseResult := urlparse_with "" url.

Definition urlunparse (p : urllib.ParseResult) : string :=
  let url := urllib.path p in
  let url := if pystr.truthy (urllib.params p) then url +:+ ";" +:+ urllib.params p else url in
  let url :=
    if pystr.truthy (urllib.netloc p)
       || (pystr.truthy (urllib.scheme p) && negb (pystr.startswith url "//"))
    then "//" +:+ urllib.netloc p
         +:+ (if pystr.truthy url && negb (pystr.startswith url "/") then "/" else "")
         +:+ url
    else url in
  let url := if pystr.truthy (urllib.scheme p) then urllib.scheme p +:+ ":" +:+ url else url in
  let url := if pystr.truthy (urllib.query p) then url +:+ "?" +:+ urllib.query p else url in
  if pystr.truthy (urllib.fragment p) then url +:+ "#" +:+ urllib.fragment p else url.

(** The loop of [urljoin] that removes dot segments; [resolved] is kept
    reversed. *)
Fixpoint resolve (segments resolved : list string) : list string :=
  match segments with
  | [] => rev resolved
  | seg :: segments' =>
      if String.eqb seg ".." then resolve segments' (tail resolved)
      else if String.eqb seg "." then resolve segments' resolved
      else resolve segments' (seg :: resolved)
  end.

(** [segments[1:-1] = filter(None, segments[1:-1])]. *)
Definition drop_empty_inner (segments : list string) : list string :=
  match segments with
  | first :: rest =>
      match rev rest with
      | final :: inner =>
          (first :: filter (λ x, pystr.truthy x = true) (rev inner) ++ [final])%list
      | [] => segments
      end
  | [] => []
  end.

Definition urljoin (base url : string) : string :=
  if negb (pystr.truthy base) then url
  else if negb (pystr.truthy url) then base
  else
    let b := urlparse base in
    let u := urlparse_with (urllib.scheme b) url in
    if negb (String.eqb (urllib.scheme u) (urllib.scheme b))
       || negb (in_list (urllib.scheme u) ["http"; "https"])
    then url
    else if pystr.truthy (urllib.netloc u) then urlunparse u
    else if negb (pystr.truthy (urllib.path u)) && negb (pystr.truthy (urllib.params u))
    then
      urlunparse
        (urllib.mkParseResult (urllib.scheme u) (urllib.netloc b) (urllib.path b)
           (urllib.params b)
           (if pystr.truthy (urllib.query u) then urllib.query u else urllib.query b)
           (urllib.fragment u))
    else
      let base_parts := pystr.split "/" (urllib.path b) in
      let base_parts :=
        match rev base_parts with
        | final :: init => if pystr.truthy final then rev init else base_parts
        | [] => base_parts
        end in
      let segments :=
        if pystr.startswith (urllib.path u) "/" then pystr.split "/" (urllib.path u)
        else drop_empty_inner (base_parts ++ pystr.split "/" (urllib.path u))%list in
      let resolved := resolve segments [] in
      let resolved :=
        match rev segments with
        | final :: _ =>
            if String.eqb final "." || String.eqb final ".."
            then (resolved ++ [""])%list else resolved
        | [] => resolved
        end in
      let path := pystr.join "/" resolved in
      urlunparse
        (urllib.mkParseResult (urllib.scheme u) (urllib.netloc b)
           (if pystr.truthy path then path else "/")
           (urllib.params u) (urllib.query u) (urllib.fragment u)).

(** The pages of the site, written with single quotes around attribute
    values, and the tags the HTML parser finds in them. *)
Definition index_html : string :=
  "<img src='/img/a.png'><a href='/b.html' rel='nofollow'>b</a>"
  +:+ "<a href='/docs/manual.pdf'>manual</a><a href='/sub/'>sub</a>"
  +:+ "<img src='/img/a.png'>".
Definition sub_html : string :=
  "<script src='/js/app.js'></script><a href='/'>home</a><a href='/deep'>deep</a>".
Definition deep_html : string := "<img src='/big.mp4'>".

Definition tag (name : string) (l : list (string * attr_value)) : Tag :=
  mkTag name (list_to_map l).

Definition index_soup : list Tag :=
  [ tag "img" [("src", Str "/img/a.png")];
    tag "a" [("href", Str "/b.html"); ("rel", StrList ["nofollow"])];
    tag "a" [("href", Str "/docs/manual.pdf")];
    tag "a" [("href", Str "/sub/")];
    tag "img" [("src", Str "/img/a.png")] ].
Definition sub_soup : list Tag :=
  [ tag "script" [("src", Str "/js/app.js")];
    tag "a" [("href", Str "/")];
    tag "a" [("href", Str "/deep")] ].
Definition deep_soup : list Tag := [ tag "img" [("src", Str "/big.mp4")] ].

Definition BeautifulSoup (html : string) : list Tag :=
  if String.eqb html index_html then index_soup
  else if String.eqb html sub_html then sub_soup
  else if String.eqb html deep_html then deep_soup
  else [].

(** A printer that shows the name of each tag and its [src] or [href]. *)
Definition show_attr (t : Tag) (attr : string) : string :=
  match attrs t !! attr with
  | Some (Str v) => " " +:+ attr +:+ "='" +:+ v +:+ "'"
  | _ => ""
  end.
Definition prettify (soup : list Tag) : string :=
  String.concat "
" (map (λ t, "<" +:+ tag_name t +:+ show_attr t "src" +:+ show_attr t "href" +:+ ">") soup).

Definition ok (length : option Z) (body : list string) : reply :=
  Reply (mkResponse 200 length body false).

(** The site: three pages, a script, an image, a document, a video that
    declares 100 MiB, an image whose request is answered by 500, one whose
    body breaks off after its first chunk, one whose server is down and one
    sent with a [content-length] that is no number. *)
Definition requests_get (url : string) : reply :=
  if String.eqb url "http://example.com/" then ok None [index_html]
  else if String.eqb url "http://example.com/sub/" then ok None [sub_html]
  else if String.eqb url "http://example.com/deep" then ok None [deep_html]
  else if String.eqb url "http://example.com/js/app.js" then ok (Some 7) ["app();" ; "
"]
  else if String.eqb url "http://example.com/img/a.png" then ok (Some 6) ["PNG"; "abc"]
  else if String.eqb url "http://example.com/docs/manual.pdf" then ok None ["%PDF"]
  else if String.eqb url "http://example.com/big.mp4" then ok (Some 104857600) ["mp4"]
  else if String.eqb url "http://example.com/err.png"
  then Reply (mkResponse 500 (Some 21) ["Internal Server Error"] false)
  else if String.eqb url "http://example.com/cut.png"
  then Reply (mkResponse 200 (Some 2048) ["PNG"] true)
  else if String.eqb url "http://example.com/down.png" then ConnectionError
  else if String.eqb url "http://example.com/odd.png"
  then BadLength (mkResponse 200 None ["PNG"] false)
  else Reply (mkResponse 404 None ["Not Found"] false).

Definition world : World :=
  mkWorld urlparse urljoin requests_get BeautifulSoup prettify "/home/user".

(** [python inidirici.py http://example.com/ -d out --depth 1], without and
    with [--follow-redirects]. *)
Definition args (follow : bool) : Args := mkArgs "out" 1 1 50 [] follow.

Definition run (follow : bool) : result state :=
  parse_and_download world (args follow) "http://example.com/" 0 initial_state.

End Example.

(** ** The worker threads and the queue

    [main] (lines 254-270) starts [threads] workers, runs the traversal, which
    puts its tasks on [download_queue] while the workers are already taking
    from it, joins the queue, puts one [None] per worker and joins the
    threads.  [download_worker] (lines 84-91) loops over [get], [save_file]
    and [task_done].  The threads interleave at the queue operations and at
    [save_file]; a configuration records where each thread stands. *)

Module Pool.

(** Where a worker stands: before [download_queue.get()] (line 87), before
    [save_file] with the pair it unpacked (line 90), before [task_done]
    (line 91); or its thread has ended, by the [break] of line 89 or by an
    exception no one caught. *)
Inductive worker :=
  | AtGet
  | AtSave (url save_path : string)
  | AtTaskDone
  | Exited
  | Died (e : exn).

(** Where the main thread stands: [k] threads still to start (lines
    256-259), the traversal with the pairs it has still to put (line 261),
    [download_queue.join()] (line 264), [k] more [None] to put (lines
    267-268), joining thread number [i] (lines 269-270), the end; or the
    main thread has ended at line 261, by an exception that left the
    traversal. *)
Inductive main_pc :=
  | Starting (k : nat)
  | Crawling (puts : list (string * string))
  | JoiningQueue
  | Stopping (k : nat)
  | JoiningThreads (i : nat)
  | Finished
  | Aborted (e : exn).

(** The terminal states of a download task. *)
Inductive outcome := Saved | Skipped | Failed.

Definition outcome_of (r : log_record) : outcome :=
  match r with
  | InfoFileSaved _ => Saved
  | WarningTooBig _ => Skipped
  | _ => Failed
  end.

Record config := mkConfig {
  queue : list item;              (* the items waiting in [download_queue] *)
  unfinished_tasks : Z;           (* the counter [put] and [task_done] keep *)
  workers : list worker;          (* the list [threads] *)
  pc : main_pc;
  disk : gmap string string;
  logged : list log_record;
  outcomes : list (string * string * outcome) }.

(** Line 87 and 88: unpacking the object into [url, save_path] raises a
    [TypeError] when it is [None]; then [url] is compared with [None]. *)
Definition unpack (it : item) : worker :=
  match it with
  | PyNone => Died TypeError
  | Pair None _ => Exited
  | Pair (Some url) save_path => AtSave url save_path
  end.

Definition terminated (w : worker) : bool :=
  match w with
  | Exited | Died _ => true
  | _ => false
  end.

Section Run.

(** A run is given by the site, [args.max_size], the number of threads
    [range(args.threads)] counts and the pairs the traversal puts on the
    queue, in the order it puts them. *)
Variable W : World.
Variable max_size : Z.
Variable threads : nat.
Variable tasks : list (string * string).

Definition initial : config := mkConfig [] 0 [] (Starting threads) ∅ [] [].

(** [download_worker] (lines 84-91), one step of it in worker number [i]:
    [get] and the unpacking, or [save_file], or [task_done].  An exception
    that leaves [save_file] at line 90 leaves the loop as well: the thread
    ends, without [task_done].  [None] when the worker is blocked on the
    empty queue or its thread has ended. *)
Definition download_worker (i : nat) (c : config) : option config :=
  match workers c !! i with
  | Some AtGet =>
      match queue c with
      | it :: q =>
          Some (mkConfig q (unfinished_tasks c) (<[i := unpack it]> (workers c))
                  (pc c) (disk c) (logged c) (outcomes c))
      | [] => None
      end
  | Some (AtSave url save_path) =>
      match save_file W url save_path max_size (disk c) with
      | Return (_, fs, r) =>
          Some (mkConfig (queue c) (unfinished_tasks c)
                  (<[i := AtTaskDone]> (workers c)) (pc c) fs (logged c ++ [r])
                  (outcomes c ++ [(url, save_path, outcome_of r)]))
      | Raise e =>
          Some (mkConfig (queue c) (unfinished_tasks c) (<[i := Died e]> (workers c))
                  (pc c) (disk c) (logged c) (outcomes c))
      | OutOfFuel => None
      end
  | Some AtTaskDone =>
      Some (mkConfig (queue c) (unfinished_tasks c - 1) (<[i := AtGet]> (workers c))
              (pc c) (disk c) (logged c) (outcomes c))
  | _ => None
  end.

(** [main] from line 254 on, one step of it: a thread started, a pair put by
    the traversal, the queue joined, a [None] put, a thread joined.  [None]
    when the main thread is blocked in a [join] or has ended.  (What the
    traversal does besides its puts is not seen from here; that it may raise
    is a step of its own, [step_of_raise] below.) *)
Definition main (c : config) : option config :=
  let goto pc :=
    mkConfig (queue c) (unfinished_tasks c) (workers c) pc
      (disk c) (logged c) (outcomes c) in
  let put it pc :=
    mkConfig (queue c ++ [it]) (unfinished_tasks c + 1) (workers c) pc
      (disk c) (logged c) (outcomes c) in
  match pc c with
  | Starting (S k) =>
      Some (mkConfig (queue c) (unfinished_tasks c) (workers c ++ [AtGet])
              (Starting k) (disk c) (logged c) (outcomes c))
  | Starting O => Some (goto (Crawling tasks))
  | Crawling ((url, save_path) :: puts) =>
      Some (put (Pair (Some url) save_path) (Crawling puts))
  | Crawling [] => Some (goto JoiningQueue)
  | JoiningQueue =>
      if unfinished_tasks c =? 0 then Some (goto (Stopping threads)) else None
  | Stopping (S k) => Some (put PyNone (Stopping k))
  | Stopping O => Some (goto (JoiningThreads 0))
  | JoiningThreads i =>
      match workers c !! i with
      | Some w => if terminated w then Some (goto (JoiningThreads (S i))) else None
      | None => Some (goto Finished)
      end
  | Finished => None
  | Aborted _ => None
  end.

(** The steps of a run: one of the main thread, one of a worker, or an
    exception [e] that leaves [parse_and_download] at line 261 while the
    traversal still has [puts] to make; nothing catches it, so the main
    thread ends there, before [download_queue.join()], and the workers are
    left to themselves. *)
Inductive step (c c' : config) : Prop :=
  | step_of_main : main c = Some c' → step c c'
  | step_of_worker i : download_worker i c = Some c' → step c c'
  | step_of_raise e puts :
      pc c = Crawling puts →
      c' = mkConfig (queue c) (unfinished_tasks c) (workers c) (Aborted e)
             (disk c) (logged c) (outcomes c) →
      step c c'.

Definition reachable (c : config) : Prop := rtc step initial c.

(** A scheduler that runs the main thread while it can and otherwise the
    first worker that can move; it is used to exhibit complete runs. *)
Fixpoint first_worker (n i : nat) (c : config) : option config :=
  match n with
  | O => None
  | S n' =>
      match download_worker i c with
      | Some c' => Some c'
      | None => first_worker n' (S i) c
      end
  end.

Fixpoint schedule (fuel : nat) (c : config) : config :=
  match fuel with
  | O => c
  | S fuel' =>
      match main c with
      | Some c' => schedule fuel' c'
      | None =>
          match first_worker (length (workers c)) 0 c with
          | Some c' => schedule fuel' c'
          | None => c
          end
      end
  end.

(** The pair an item holds, and the pair a worker is saving. *)
Definition pair_of (it : item) : list (string * string) :=
  match it with
  | Pair (Some url) save_path => [(url, save_path)]
  | _ => []
  end.

Definition saving (w : worker) : list (string * string) :=
  match w with
  | AtSave url save_path => [(url, save_path)]
  | _ => []
  end.

(** The tasks waiting in the queue, those in the hands of a worker and those
    that have reached a terminal state. *)
Definition waiting (c : config) : list (string * string) := queue c ≫= pair_of.
Definition in_hand (c : config) : list (string * string) := workers c ≫= saving.
Definition settled (c : config) : list (string * string) := fst <$> outcomes c.

(** A worker that holds a task not yet reported by [task_done], which a
    worker that died in [save_file] does for ever; a worker whose thread
    died; the number of the workers of a kind. *)
Definition busy (w : worker) : nat :=
  match w with
  | AtSave _ _ | AtTaskDone | Died _ => 1
  | _ => 0
  end.

Definition died (w : worker) : nat :=
  match w with
  | Died _ => 1
  | _ => 0
  end.

Definition tally (f : worker → nat) (ws : list worker) : nat := sum_list_with f ws.

(** While the traversal runs and while the queue is joined: every worker is
    in its loop or died of the [ValueError] of [save_file], the queue holds
    pairs only, the counter of the queue is the number of tasks put and not
    yet reported done, and every task of the run is settled, in hand,
    waiting, still to be put ([rest]), or [lost] with the worker that died
    on it. *)
Definition working (c : config) (rest : list (string * string)) : Prop :=
  length (workers c) = threads
  ∧ Forall (λ w, terminated w = false ∨ w = Died ValueError) (workers c)
  ∧ Forall (λ it, ∃ url save_path, it = Pair (Some url) save_path) (queue c)
  ∧ unfinished_tasks c = Z.of_nat (length (queue c) + tally busy (workers c))
  ∧ ∃ lost, length lost = tally died (workers c)
            ∧ settled c ++ in_hand c ++ waiting c ++ rest ++ lost ≡ₚ tasks.

(** Once the queue has been joined: every task of the run is settled, the
    queue holds [None] only, a worker is at [get] or died of the [TypeError],
    and of the [threads] stop signals [k] are still to be put, the others
    being in the queue or taken by a worker that died of it. *)
Definition stopping (c : config) (k : nat) : Prop :=
  length (workers c) = threads
  ∧ Forall (λ w, w = AtGet ∨ w = Died TypeError) (workers c)
  ∧ Forall (λ it, it = PyNone) (queue c)
  ∧ (length (queue c) + tally died (workers c) + k = threads)%nat
  ∧ unfinished_tasks c = Z.of_nat (threads - k)
  ∧ settled c ≡ₚ tasks.

Definition invariant (c : config) : Prop :=
  match pc c with
  | Starting k =>
      (length (workers c) + k = threads)%nat
      ∧ Forall (λ w, w = AtGet) (workers c)
      ∧ queue c = [] ∧ unfinished_tasks c = 0 ∧ outcomes c = []
  | Crawling rest => working c rest
  | JoiningQueue => working c []
  | Stopping k => stopping c k
  | JoiningThreads i =>
      stopping c 0
      ∧ ∀ j w, (j < i)%nat → workers c !! j = Some w → w = Died TypeError
  | Finished => stopping c 0 ∧ Forall (λ w, w = Died TypeError) (workers c)
  | Aborted _ => ∃ rest, working c rest
  end.

(** A bound on the steps a configuration can still take: what the main
    thread has left to do, three steps for each item in the queue and the
    steps that lead a worker back to [get]. *)
Definition load (w : worker) : nat :=
  match w with
  | AtSave _ _ => 2
  | AtTaskDone => 1
  | _ => 0
  end.

Definition main_measure (c : config) : nat :=
  let l := length (workers c) in
  match pc c with
  | Starting k => 3 * k + 4 * length tasks + 4 * threads + l + 5
  | Crawling rest => 4 * length rest + 4 * threads + l + 4
  | JoiningQueue => 4 * threads + l + 3
  | Stopping k => 4 * k + l + 2
  | JoiningThreads i => (l - i) + 1
  | Finished => 0
  | Aborted _ => 0
  end.

Definition measure (c : config) : nat :=
  main_measure c + 3 * length (queue c) + tally load (workers c).

End Run.

End Pool.

(** ** The start of [main] and [load_user_agents] *)

(** The value [main] gives [include_types] (line 249) from the argument of
    [--include-types], [None] when the option is absent: a dot is put before
    each piece between commas, stripped of white space. *)
Definition include_types_of (arg : option string) : list string :=
  match arg with
  | Some s =>
      if pystr.truthy s
      then map (λ ext, "." +:+ pystr.strip ext) (pystr.split "," s)
      else []
  | None => []
  end.

(** [load_user_agents] (lines 159-167) on the regular text files of the
    disk: the list it returns and whether it logged the error of line 162. *)
Definition load_user_agents (fs : gmap string string) (file_path : string)
  : list string * bool :=
  match fs !! file_path with
  | None => ([], true)
  | Some content => (pystr.splitlines content, false)
  end.

(** [random.choice(seq)]: the element at a position the generator picks,
    [pick] standing for its draw; [None] is the [IndexError] raised for an
    empty sequence. *)
Definition random_choice (pick : nat) (seq : list string) : option string :=
  match seq with
  | [] => None
  | _ => seq !! (pick `mod` length seq)%nat
  end.

(** The value [main] gives the header [User-Agent] (lines 221-230) from
    [--user-agent], [--random-user-agent] and [--user-agent-file]; [None] is
    the [IndexError] of [random.choice]. *)
Definition user_agent_header (user_agent : string) (random_user_agent : bool)
    (user_agent_file : option string) (fs : gmap string string) (pick : nat)
  : option string :=
  if random_user_agent then
    let builtin :=
      [ "Mozilla/5.0 (Windows NT 10.0; Win64; x64; rv:91.0) Gecko/20100101 Firefox/91.0";
        "Mozilla/5.0 (Windows NT 10.0; Win64; x64) AppleWebKit/537.36 (KHTML, like Gecko) Chrome/92.0.4515.159 Safari/537.36";
        "Mozilla/5.0 (Macintosh; Intel Mac OS X 10_15_7) AppleWebKit/605.1.15 (KHTML, like Gecko) Version/14.0.3 Safari/605.1.15" ] in
    let user_agents :=
      match user_agent_file with
      | Some file_path =>
          if pystr.truthy file_path then (load_user_agents fs file_path).1 else builtin
      | None => builtin
      end in
    random_choice pick user_agents
  else Some user_agent.

(** ** Notions the properties are stated with *)

(** The arguments [A] with [follow_redirects] set to [b]. *)
Definition with_follow_redirects (A : Args) (b : bool) : Args :=
  mkArgs (save_dir A) (delay A) (max_depth A) (max_size A) (include_types A) b.

(** The URLs requested along a trace, in order. *)
Definition requested (tr : list event) : list string :=
  omap (λ e, match e with Get url => Some url | _ => None end) tr.

(** The character [c] occurs in [s]. *)
Definition occurs (c : ascii) (s : string) : bool := pystr.contains (String c "") s.

(** An item as line 146 puts it: the pair of a URL with scheme and host whose
    path has an extension of [RESOURCE_TYPES], and of the destination computed
    for that URL. *)
Definition download_task (W : World) (A : Args) (it : item) : Prop :=
  ∃ url, it = Pair (Some url) (resource_path_of W A url)
         ∧ is_valid_url W url = true
         ∧ pystr.lower (posixpath.splitext (urllib.path (urlparse W url))).2
           ∈ RESOURCE_TYPES.

(** The queue of [st'] is the queue of [st] with download tasks put after. *)
Definition queue_grows (W : World) (A : Args) (st st' : state) : Prop :=
  ∃ new, download_queue st' = (download_queue st ++ new)%list
         ∧ Forall (download_task W A) new.

(** From [st] to [st'] no file was removed, and the files created or changed
    have names without a slash. *)
Definition files_stay_flat (st st' : state) : Prop :=
  ∀ p, (is_Some (files st !! p) → is_Some (files st' !! p))
       ∧ (files st' !! p ≠ files st !! p → occurs "/" p = false).

(** From [st] to [st'] nothing was added to [visited] and nothing requested. *)
Definition no_request (st st' : state) : Prop :=
  visited st' = visited st ∧ requested (trace st') = requested (trace st).

(** From [st] to [st'] the queue stayed as it was. *)
Definition queue_kept (st st' : state) : Prop := download_queue st' = download_queue st.

(** The text of a file that holds [lines], each ended by a line feed. *)
Definition text_of_lines (lines : list string) : string :=
  foldr (λ line text, line +:+ String "010" text) "" lines.

(** [s] holds no line boundary: no carriage return and none of the
    characters of [pystr.linebreak]. *)
Fixpoint single_line (s : string) : bool :=
  match s with
  | EmptyString => true
  | String a s' => negb (Ascii.eqb a "013" || pystr.linebreak a) && single_line s'
  end.

(** The length that the response to [url] declares can be read: [save_file]
    gets past line 61 on it, or does not get there. *)
Definition length_reads (W : World) (url : string) : bool :=
  match requests_get W url with
  | BadLength r => raise_for_status r
  | _ => true
  end.

(** The files a call of [save_file] leaves on a disk that held [fs]: those
    it returns with; when it raises it has opened none. *)
Definition files_after (r : result (bool * gmap string string * log_record))
    (fs : gmap string string) : gmap string string :=
  match r with
  | Return (_, fs', _) => fs'
  | _ => fs
  end.

(** The tag [t'] is the tag [t] after the loop: the same name, the same
    attributes with the same values except perhaps for [src] and [href], and
    the same tag altogether when its name is none of those the loop looks for. *)
Definition rewritten (t t' : Tag) : Prop :=
  tag_name t' = tag_name t
  ∧ (∀ k, k ≠ "src" → k ≠ "href" → attrs t' !! k = attrs t !! k)
  ∧ (∀ k, is_Some (attrs t' !! k) ↔ is_Some (attrs t !! k))
  ∧ (tag_name t ∉ (tags).*1 → t' = t).

(** [s] does not begin with the character [c]. *)
Definition not_headed (c : ascii) (s : string) : Prop :=
  match s with
  | String x _ => x ≠ c
  | EmptyString => True
  end.

(** The last segment of a path: what follows its last slash. *)
Definition last_segment (path : string) : string :=
  default "" (last (pystr.split "/" path)).

(** The extension the loop body compares: lower-cased, of the path of the
    URL that [src] resolves to on the page [url]. *)
Definition resource_ext_of (W : World) (url src : string) : string :=
  pystr.lower (posixpath.splitext (urllib.path (urlparse W (urljoin W url src)))).2.

(** The discipline of the [visited] set, checked on a trace; [added] and
    [fetched] are the URLs added to [visited] and requested so far.  A URL is
    added at most once, and requested at most once and only after it was
    added.  With [puts] set, a URL must also have been added before it is put
    on the queue. *)
Fixpoint disciplined (puts : bool) (added fetched : gset string) (tr : list event)
  : bool :=
  match tr with
  | [] => true
  | VisitedAdd u :: tr' =>
      bool_decide (u ∉ added) && disciplined puts ({[u]} ∪ added) fetched tr'
  | Get u :: tr' =>
      bool_decide (u ∈ added) && bool_decide (u ∉ fetched)
      && disciplined puts added ({[u]} ∪ fetched) tr'
  | Put u _ :: tr' =>
      (negb puts || bool_decide (u ∈ added)) && disciplined puts added fetched tr'
  | _ :: tr' => disciplined puts added fetched tr'
  end.

(** The URLs added to [visited], and the URLs requested, along a trace. *)
Fixpoint added_by (added : gset string) (tr : list event) : gset string :=
  match tr with
  | [] => added
  | VisitedAdd u :: tr' => added_by ({[u]} ∪ added) tr'
  | _ :: tr' => added_by added tr'
  end.

Fixpoint fetched_by (fetched : gset string) (tr : list event) : gset string :=
  match tr with
  | [] => fetched
  | Get u :: tr' => fetched_by ({[u]} ∪ fetched) tr'
  | _ :: tr' => fetched_by fetched tr'
  end.

(** The state of a run that has kept the discipline so far: the URLs added
    and the URLs requested are those of [visited]. *)
Definition kept (st : state) : Prop :=
  disciplined false ∅ ∅ (trace st) = true
  ∧ added_by ∅ (trace st) = visited st
  ∧ fetched_by ∅ (trace st) = visited st.

(** What a call of the traversal may do to a state: [visited] grows and the
    discipline is kept. *)
Definition extends (st st' : state) : Prop :=
  visited st ⊆ visited st' ∧ (kept st → kept st').

(** A computation that ran out of fuel gave no outcome of the program. *)
Definition fuelled {A : Type} (r : result A) : Prop := r ≠ OutOfFuel.

(** The relative reference [ref] resolved from the directory of the file
    [page], as a browser opening the saved page resolves it. *)
Definition resolve_from (page ref : string) : string :=
  posixpath.normpath (posixpath.join (posixpath.dirname page) ref).

(** The events that neither add to [visited] nor request a URL. *)
Definition benign (e : event) : Prop :=
  match e with
  | VisitedAdd _ | Get _ => False
  | _ => True
  end.

(** * Properties *)

(** ** Strings and paths *)

Lemma string_app_cons (x : ascii) (a b : string) : String x a +:+ b = String x (a +:+ b).
Proof. reflexivity. Qed.

Lemma string_app_nil (b : string) : "" +:+ b = b.
Proof. reflexivity. Qed.

Ltac simpl_app := rewrite ?string_app_cons, ?string_app_nil in *.

Lemma string_app_assoc (a b c : string) : (a +:+ b) +:+ c = a +:+ (b +:+ c).
Proof. induction a as [|x a IH]; simpl_app; [done | by rewrite IH]. Qed.

Lemma startswith_slash (s : string) :
  pystr.startswith s "/" = match s with String x _ => Ascii.eqb x "/" | EmptyString => false end.
Proof. destruct s as [|x s]; simpl; [done | apply andb_true_r]. Qed.

Lemma lstrip_app (c : ascii) (p s : string) :
  not_headed c s → pystr.lstrip c (p +:+ s) = pystr.lstrip c p +:+ s.
Proof.
  intros Hs. induction p as [|x p IH]; simpl_app; simpl.
  - destruct s as [|y s]; simpl in *; [done |].
    apply Ascii.eqb_neq in Hs. by rewrite Hs.
  - destruct (Ascii.eqb x c); [exact IH | done].
Qed.

Lemma lstrip_app_nonempty (c : ascii) (p s : string) :
  pystr.lstrip c p ≠ "" → pystr.lstrip c (p +:+ s) = pystr.lstrip c p +:+ s.
Proof.
  induction p as [|x p IH]; simpl_app; simpl; [done |].
  destruct (Ascii.eqb x c); [exact IH | done].
Qed.

Lemma lstrip_nonempty (c : ascii) (p : string) :
  p ≠ "" → pystr.endswith p c = false → pystr.lstrip c p ≠ "".
Proof.
  induction p as [|x p IH]; [done |]. intros _ Hend. simpl.
  destruct (Ascii.eqb x c) eqn:Hx; [| done].
  destruct p as [|y p]; simpl in Hend; [congruence |].
  apply IH; done.
Qed.

Lemma join_app (a b c : string) :
  b ≠ "" ∨ not_headed "/" c →
  posixpath.join a (b +:+ c) = posixpath.join a b +:+ c.
Proof.
  intros H. unfold posixpath.join. rewrite !startswith_slash.
  assert (match b +:+ c with String x _ => Ascii.eqb x "/" | EmptyString => false end
          = match b with String x _ => Ascii.eqb x "/" | EmptyString => false end) as ->.
  { destruct b as [|x b]; simpl_app; [| done].
    destruct H as [H | H]; [done |].
    destruct c as [|y c]; simpl in *; [done |]. by apply Ascii.eqb_neq. }
  destruct (match b with String x _ => Ascii.eqb x "/" | EmptyString => false end); [done |].
  destruct (negb (pystr.truthy a) || pystr.endswith a posixpath.sep);
    by rewrite ?string_app_assoc.
Qed.

Lemma split_nonempty (c : ascii) (s : string) : pystr.split c s ≠ [].
Proof.
  destruct s as [|a s]; simpl; [done |].
  destruct (Ascii.eqb a c); [done |]. by destruct (pystr.split c s).
Qed.

(** A path is its last segment preceded by what leads to it; the last
    segment does not begin with a slash. *)
Lemma last_segment_split (s : string) :
  ∃ head, s = head +:+ last_segment s
          ∧ not_headed "/" (last_segment s)
          ∧ (length (pystr.split "/" s) = 1%nat → head = "").
Proof.
  unfold last_segment. induction s as [|a s (head & Hs & Hseg & Hone)].
  - by exists "".
  - pose proof (split_nonempty "/" s) as Hne. cbn [pystr.split].
    destruct (Ascii.eqb a "/") eqn:Ha.
    + apply Ascii.eqb_eq in Ha as ->. exists (String "/" head).
      destruct (pystr.split "/" s) as [|w ws] eqn:Hsplit; [done |].
      rewrite last_cons_cons. rewrite string_app_cons.
      repeat split; [by f_equal | done | simpl; lia].
    + apply Ascii.eqb_neq in Ha.
      destruct (pystr.split "/" s) as [|w [|w' ws]] eqn:Hsplit; [done | |].
      * exists "". simpl in *. rewrite (Hone eq_refl) in Hs. simpl in Hs.
        rewrite string_app_nil in Hs. by subst.
      * exists (String a head). rewrite !last_cons_cons in *. rewrite string_app_cons.
        repeat split; [by f_equal | done | simpl; lia].
Qed.

(** [sanitize_filename] leaves no slash in its result. *)
Lemma sanitize_filename_no_sep (filename : string) :
  pystr.contains "/" (sanitize_filename filename) = false.
Proof.
  induction filename as [|a s IH]; [done |].
  cbn [sanitize_filename pystr.contains]. rewrite IH, orb_false_r.
  rewrite startswith_slash.
  destruct (invalid_char a) eqn:Ha; [done |].
  destruct (Ascii.eqb a "/") eqn:Hs; [| done].
  apply Ascii.eqb_eq in Hs as ->. by vm_compute in Ha.
Qed.

Lemma rfind_from_ge (c : ascii) (s : string) (i last : Z) :
  last <= i → last <= pystr.rfind_from c s i last.
Proof.
  revert i last. induction s as [|a s IH]; intros i last Hle; simpl; [lia |].
  destruct (Ascii.eqb a c).
  - etrans; [| apply IH]; lia.
  - apply IH. lia.
Qed.

Lemma rfind_from_lstrip_empty (s : string) (i last : Z) :
  pystr.lstrip "/" s = "" → pystr.rfind_from "." s i last = last.
Proof.
  revert i last. induction s as [|a s IH]; intros i last Hs; simpl in *; [done |].
  destruct (Ascii.eqb a "/") eqn:Ha; [| done].
  apply Ascii.eqb_eq in Ha as ->. simpl. by apply IH.
Qed.

(** A path with an extension has something left after [lstrip('/')]. *)
Lemma splitext_lstrip_nonempty (p : string) :
  (posixpath.splitext p).2 ≠ "" → pystr.lstrip "/" p ≠ "".
Proof.
  intros Hext Hs. apply Hext. unfold posixpath.splitext. cbv zeta.
  assert (pystr.rfind "." p = -1) as -> by by apply rfind_from_lstrip_empty.
  pose proof (rfind_from_ge posixpath.sep p 0 (-1) ltac:(lia)) as Hge.
  fold (pystr.rfind posixpath.sep p) in Hge.
  destruct (-1 >? pystr.rfind posixpath.sep p) eqn:Hcmp; [lia | done].
Qed.

Lemma sanitize_filename_nonempty (s : string) : s ≠ "" → sanitize_filename s ≠ "".
Proof. by destruct s. Qed.

Lemma join_nonempty (a b : string) : b ≠ "" → posixpath.join a b ≠ "".
Proof.
  intros Hb. unfold posixpath.join.
  destruct (pystr.startswith b "/"); [done |].
  destruct (negb (pystr.truthy a) || pystr.endswith a posixpath.sep);
    destruct a, b; done.
Qed.

(** ** The traversal: guards and gates *)

Section Traversal.

Variable W : World.
Variable A : Args.

(** C5. A call of [parse_and_download] whose [current_depth] exceeds
    [max_depth], or whose [url] is already in [visited], returns at once:
    the state it returns is the state it was given, so nothing was added to
    [visited], nothing was requested, put, written or logged. *)
Theorem C5_beyond_depth_or_visited_returns_immediately
    (url : string) (current_depth : Z) (st : state) :
  current_depth > max_depth A ∨ url ∈ visited st →
  parse_and_download W A url current_depth st = Return st
  ∧ ∀ fuel, parse_and_download_rec W A (S fuel) url current_depth st = Return st.
Proof.
  intros H.
  assert (∀ fuel, parse_and_download_rec W A (S fuel) url current_depth st = Return st)
    as Hrec.
  { intros fuel. simpl.
    destruct (current_depth >? max_depth A) eqn:Hd; [done |].
    destruct H as [H | H]; [lia |].
    by rewrite bool_decide_eq_true_2. }
  split; [apply Hrec | exact Hrec].
Qed.

(** C8. A reference whose [rel] attribute lists [nofollow] is skipped by the
    loop body whatever its tag, its attribute, its extension and the value
    of [follow_redirects]: the tag and the state are returned as they were,
    so that nothing is put on the queue and the recursive call is not made. *)
Theorem C8_nofollow_reference_rejected
    (recurse : string → Z → state → result state)
    (url save_path : string) (current_depth : Z) (tag attr : string)
    (resource : Tag) (rel : list string) (st : state) :
  attrs resource !! "rel" = Some (StrList rel) →
  "nofollow" ∈ rel →
  resource_step W A recurse url save_path current_depth tag attr resource st
  = Return (resource, st).
Proof.
  intros Hrel Hin. unfold resource_step, nofollow. rewrite Hrel.
  rewrite (bool_decide_eq_true_2 _ Hin). by rewrite orb_true_r.
Qed.

(** C7. The path computed for a page (lines 106-113) from the path
    component [path] of its URL, under [save_dir]:
    - when [path] ends in a slash, [index.html] inside the directory that
      [path] maps to;
    - when [path] has no extension (and does not end in a slash),
      [/index.html] after what [path] maps to, that is [index.html] in a
      directory named after the last segment of [path]; for an empty [path]
      this is [index.html] under [save_dir];
    - in every case a function of [path] alone, so that the query and the
      fragment of the URL play no part. *)
Theorem C7_page_path_index_defaulting (url : string) :
  let path := urllib.path (urlparse W url) in
  (pystr.endswith path "/" = true →
     page_save_path W A url
     = posixpath.join (save_dir A) (pystr.lstrip "/" path) +:+ "index.html")
  ∧ (pystr.endswith path "/" = false → (posixpath.splitext path).2 = "" →
       page_save_path W A url
       = posixpath.join (save_dir A) (pystr.lstrip "/" (path +:+ "/index.html"))
       ∧ (path ≠ "" →
            page_save_path W A url
            = posixpath.join (save_dir A) (pystr.lstrip "/" path) +:+ "/index.html"
            ∧ ∃ parent,
                page_save_path W A url
                = parent +:+ last_segment path +:+ "/index.html")
       ∧ (path = "" →
            page_save_path W A url = posixpath.join (save_dir A) "index.html"))
  ∧ (∀ url', urllib.path (urlparse W url') = path →
       page_save_path W A url' = page_save_path W A url).
Proof.
  intros path. unfold page_save_path. fold path. repeat split.
  - intros ->. rewrite lstrip_app by (simpl; discriminate).
    rewrite join_app by (right; simpl; discriminate). done.
  - rewrite H, H0. done.
  - rewrite H, H0. simpl negb. cbv iota.
    rewrite lstrip_app_nonempty by by apply lstrip_nonempty.
    rewrite join_app by (left; by apply lstrip_nonempty). done.
  - rewrite H, H0. simpl negb. cbv iota.
    rewrite lstrip_app_nonempty by by apply lstrip_nonempty.
    rewrite join_app by (left; by apply lstrip_nonempty).
    destruct (last_segment_split path) as (head & Hpath & Hseg & _).
    exists (posixpath.join (save_dir A) (pystr.lstrip "/" head)).
    rewrite <- string_app_assoc. f_equal.
    rewrite Hpath at 1. rewrite lstrip_app by done. by rewrite join_app by by right.
  - intros Hempty. rewrite H, H0, Hempty. done.
  - intros url' ->. done.
Qed.

End Traversal.

(** C6. When the response to a download is not an error and declares a
    content length above [max_size] MiB, [save_file] writes nothing: it returns
    [False], the files are unchanged and the record logged is the warning of
    line 64.  The worker that made the call records the task as skipped, calls
    [task_done] and is back at [download_queue.get()]. *)
Theorem C6_oversize_download_skipped (W : World) (url save_path : string)
    (max_size : Z) (fs : gmap string string) (response : Response) (n : Z) :
  requests_get W url = Reply response →
  raise_for_status response = false →
  content_length response = Some n →
  n > max_size * 1024 * 1024 →
  save_file W url save_path max_size fs = Return (false, fs, WarningTooBig url)
  ∧ ∀ (i : nat) (c : Pool.config),
      Pool.workers c !! i = Some (Pool.AtSave url save_path) →
      Pool.disk c = fs →
      ∃ c1 c2,
        Pool.download_worker W max_size i c = Some c1
        ∧ Pool.disk c1 = fs
        ∧ Pool.logged c1 = (Pool.logged c ++ [WarningTooBig url])%list
        ∧ Pool.outcomes c1 = (Pool.outcomes c ++ [(url, save_path, Pool.Skipped)])%list
        ∧ Pool.workers c1 !! i = Some Pool.AtTaskDone
        ∧ Pool.download_worker W max_size i c1 = Some c2
        ∧ Pool.disk c2 = fs
        ∧ Pool.workers c2 !! i = Some Pool.AtGet.
Proof.
  intros Hget Hstatus Hlen Hbig.
  assert (save_file W url save_path max_size fs = Return (false, fs, WarningTooBig url))
    as Hsave.
  { unfold save_file. rewrite Hget, Hstatus, Hlen. simpl.
    destruct (n >? max_size * 1024 * 1024) eqn:Hcmp; [done | lia]. }
  split; [exact Hsave |].
  intros i c Hw <-.
  assert (i < length (Pool.workers c))%nat as Hi by (by eapply lookup_lt_Some).
  set (c1 := Pool.mkConfig (Pool.queue c) (Pool.unfinished_tasks c)
               (<[i := Pool.AtTaskDone]> (Pool.workers c)) (Pool.pc c) (Pool.disk c)
               (Pool.logged c ++ [WarningTooBig url])
               (Pool.outcomes c ++ [(url, save_path, Pool.Skipped)])).
  set (c2 := Pool.mkConfig (Pool.queue c1) (Pool.unfinished_tasks c1 - 1)
               (<[i := Pool.AtGet]> (Pool.workers c1)) (Pool.pc c1) (Pool.disk c1)
               (Pool.logged c1) (Pool.outcomes c1)).
  assert (Pool.workers c1 !! i = Some Pool.AtTaskDone) as Hw1
    by (by apply list_lookup_insert_eq).
  exists c1, c2. repeat split.
  - unfold Pool.download_worker. by rewrite Hw, Hsave.
  - exact Hw1.
  - unfold Pool.download_worker. by rewrite Hw1.
  - apply list_lookup_insert_eq. subst c1. simpl. by rewrite length_insert.
Qed.

Lemma C5_witness :
  (2 > max_depth (Example.args true) ∨ "http://example.com/deep" ∈ visited initial_state)
  ∧ parse_and_download Example.world (Example.args true) "http://example.com/deep" 2
      initial_state = Return initial_state.
Proof.
  assert (2 > max_depth (Example.args true)) as H by (simpl; lia).
  split; [by left |].
  apply (C5_beyond_depth_or_visited_returns_immediately
           Example.world (Example.args true) "http://example.com/deep" 2 initial_state).
  by left.
Defined.

Lemma C8_witness :
  let resource :=
    Example.tag "a" [("href", Str "/docs/manual.pdf"); ("rel", StrList ["nofollow"])] in
  attrs resource !! "rel" = Some (StrList ["nofollow"])
  ∧ resource_step Example.world (Example.args true)
      (parse_and_download Example.world (Example.args true))
      "http://example.com/" "out/index.html" 0 "a" "href" resource initial_state
    = Return (resource, initial_state).
Proof.
  intros resource.
  assert (attrs resource !! "rel" = Some (StrList ["nofollow"])) as H by reflexivity.
  split; [exact H |].
  apply (C8_nofollow_reference_rejected Example.world (Example.args true) _
           "http://example.com/" "out/index.html" 0 "a" "href" resource ["nofollow"]
           initial_state H).
  apply list_elem_of_here.
Defined.

Lemma C7_witness :
  page_save_path Example.world (Example.args false) "http://example.com/sub/?page=2#top"
  = "out/sub/index.html"
  ∧ page_save_path Example.world (Example.args false) "http://example.com/deep?x=1"
    = "out/deep/index.html"
  ∧ page_save_path Example.world (Example.args false) "http://example.com/sub/"
    = page_save_path Example.world (Example.args false) "http://example.com/sub/?page=2#top".
Proof.
  pose proof (C7_page_path_index_defaulting Example.world (Example.args false)
                "http://example.com/sub/?page=2#top") as (Hslash & _ & Hsame).
  pose proof (C7_page_path_index_defaulting Example.world (Example.args false)
                "http://example.com/deep?x=1") as (_ & Hplain & _).
  split; [exact (Hslash eq_refl) |].
  split; [| exact (Hsame "http://example.com/sub/" eq_refl)].
  destruct (Hplain eq_refl eq_refl) as (_ & Hne & _).
  destruct Hne as [Hpath _]; [discriminate | exact Hpath].
Defined.

Lemma C6_witness :
  save_file Example.world "http://example.com/big.mp4" "out/big.mp4" 50 ∅
  = Return (false, ∅, WarningTooBig "http://example.com/big.mp4").
Proof.
  apply (C6_oversize_download_skipped Example.world "http://example.com/big.mp4"
           "out/big.mp4" 50 ∅ (mkResponse 200 (Some 104857600) ["mp4"] false) 104857600).
  - reflexivity.
  - reflexivity.
  - reflexivity.
  - lia.
Defined.

(** ** Where files are written *)

(** C3 (the program departs from the claim here). [sanitize_filename]
    replaces the slash like the other eight characters and is applied to whole
    paths: to the path of the resource URL at line 141 and to the complete
    destination at lines 67 and 152.  No result of it contains a slash; the
    resource [/img/a.png] is given the destination [out/img_a.png] and is
    written to [out_img_a.png], and the page [/sub/] is written to
    [out_sub_index.html], both in the working directory. *)
Theorem C3_sanitize_filename_replaces_separators :
  (∀ filename, pystr.contains "/" (sanitize_filename filename) = false)
  ∧ sanitize_filename "img/a.png" = "img_a.png"
  ∧ resource_path_of Example.world (Example.args true) "http://example.com/img/a.png"
    = "out/img_a.png"
  ∧ save_file Example.world "http://example.com/img/a.png" "out/img_a.png" 50 ∅
    = Return (true, {["out_img_a.png" := "PNGabc"]}, InfoFileSaved "out_img_a.png")
  ∧ page_save_path Example.world (Example.args true) "http://example.com/sub/"
    = "out/sub/index.html"
  ∧ ∃ st, Example.run true = Return st
          ∧ (map fst (map_to_list (files st))) = ["out_sub_index.html"; "out_index.html"].
Proof.
  split; [exact sanitize_filename_no_sep |].
  repeat split; try reflexivity.
  eexists. split; vm_compute; reflexivity.
Qed.

(** ** Classification of references *)

Lemma relpath_is_Some (cwd path start : string) :
  path ≠ "" → is_Some (posixpath.relpath cwd path start).
Proof.
  intros Hp. unfold posixpath.relpath.
  destruct path as [|a p]; [done |]. simpl negb. cbv iota zeta.
  match goal with |- is_Some (match ?l with _ => _ end) => destruct l end; eauto.
Qed.

Section Classification.

Variable W : World.
Variable A : Args.

Lemma resource_path_nonempty (url src : string) :
  resource_ext_of W url src ∈ RESOURCE_TYPES →
  resource_path_of W A (urljoin W url src) ≠ "".
Proof.
  intros Hext. unfold resource_path_of.
  apply join_nonempty, sanitize_filename_nonempty, splitext_lstrip_nonempty.
  intros Hempty. unfold resource_ext_of in Hext. rewrite Hempty in Hext.
  apply (bool_decide_pack _) in Hext. by vm_compute in Hext.
Qed.

(** A reference of any tag that passes the gates of lines 131, 137 and 144
    and whose extension is one of [RESOURCE_TYPES] is put on the queue with
    its destination, and its attribute is set to the relative path, written
    with forward slashes, from the directory of the path computed for the page
    to that destination. *)
Lemma accepted_resource_is_put_and_rewritten
    (recurse : string → Z → state → result state)
    (url save_path : string) (current_depth : Z) (tag attr : string)
    (resource : Tag) (src : string) (st : state) :
  let resource_url := urljoin W url src in
  let resource_path := resource_path_of W A resource_url in
  attrs resource !! attr = Some (Str src) →
  src ≠ "" →
  nofollow resource = false →
  resource_ext_of W url src ∈ RESOURCE_TYPES →
  include_types A = [] ∨ resource_ext_of W url src ∈ include_types A →
  is_valid_url W resource_url = true →
  resource_url ∉ visited st →
  ∃ relative_path,
    posixpath.relpath (getcwd W) resource_path (posixpath.dirname save_path)
    = Some relative_path
    ∧ resource_step W A recurse url save_path current_depth tag attr resource st
      = Return
          (mkTag (tag_name resource)
             (<[attr := Str (pystr.replace "\" "/" relative_path)]> (attrs resource)),
           queue_put resource_url resource_path
             (make_dirs (posixpath.dirname resource_path) st)).
Proof.
  intros resource_url resource_path Hattr Hsrc Hnofollow Hext Hinclude Hvalid Hvisited.
  pose proof (relpath_is_Some (getcwd W) resource_path (posixpath.dirname save_path)
                (resource_path_nonempty url src Hext)) as [relative_path Hrel].
  unfold resource_ext_of in *. fold resource_url in Hext, Hinclude.
  exists relative_path. split; [exact Hrel |].
  unfold resource_step. rewrite Hattr, Hnofollow. fold resource_url.
  assert (not_src (Some (Str src)) = false) as -> by (by destruct src).
  simpl orb. cbv iota.
  unfold in_list. rewrite (bool_decide_eq_true_2 _ Hext).
  assert (bool_decide (include_types A ≠ [])
          && negb (bool_decide
                     (pystr.lower
                        (posixpath.splitext (urllib.path (urlparse W resource_url))).2
                      ∈ include_types A)) = false) as ->.
  { destruct Hinclude as [-> | Hinc]; [done |].
    rewrite (bool_decide_eq_true_2 _ Hinc). apply andb_false_r. }
  simpl orb. cbv iota.
  rewrite Hvalid. fold resource_path.
  rewrite bool_decide_eq_true_2 by exact Hvisited. simpl andb. cbv iota.
  rewrite Hrel. reflexivity.
Qed.

(** C10, as amended. For an anchor whose resolved URL has an extension of
    [RESOURCE_TYPES]:
    - the outcome of the loop body does not depend on the recursive call,
      which is therefore never made, with [follow_redirects] on or off;
    - when the reference passes the gates of lines 131, 137 and 144 ([href]
      not empty, no [nofollow], extension admitted by [include_types], URL
      with scheme and host, URL not in [visited]), the pair of its URL and
      destination is put on the queue and [href] is set to the relative
      path from the directory of the page to that destination. *)
Theorem C10_anchor_with_resource_extension_is_resource
    (recurse : string → Z → state → result state)
    (url save_path : string) (current_depth : Z)
    (resource : Tag) (src : string) (st : state) :
  let resource_url := urljoin W url src in
  let resource_path := resource_path_of W A resource_url in
  attrs resource !! "href" = Some (Str src) →
  resource_ext_of W url src ∈ RESOURCE_TYPES →
  (∀ recurse',
     resource_step W A recurse' url save_path current_depth "a" "href" resource st
     = resource_step W A recurse url save_path current_depth "a" "href" resource st)
  ∧ (src ≠ "" →
     nofollow resource = false →
     include_types A = [] ∨ resource_ext_of W url src ∈ include_types A →
     is_valid_url W resource_url = true →
     resource_url ∉ visited st →
     ∃ relative_path,
       posixpath.relpath (getcwd W) resource_path (posixpath.dirname save_path)
       = Some relative_path
       ∧ resource_step W A recurse url save_path current_depth "a" "href" resource st
         = Return
             (mkTag (tag_name resource)
                (<["href" := Str (pystr.replace "\" "/" relative_path)]> (attrs resource)),
              queue_put resource_url resource_path
                (make_dirs (posixpath.dirname resource_path) st))).
Proof.
  intros resource_url resource_path Hhref Hext. split.
  - intros recurse'. unfold resource_step. rewrite Hhref.
    unfold resource_ext_of in Hext. unfold in_list.
    rewrite !(bool_decide_eq_true_2 _ Hext). reflexivity.
  - intros Hsrc Hnofollow Hinclude Hvalid Hvisited.
    by apply accepted_resource_is_put_and_rewritten.
Qed.

End Classification.

(** C10 as stated fails on references that the earlier gates turn away: an
    anchor to a [.pdf] carrying [rel='nofollow'], and an anchor to a [.pdf]
    when [include_types] admits [.jpg] only, are neither put on the queue nor
    rewritten. *)
Lemma C10_counterexample :
  let href := Str "/docs/manual.pdf" in
  let marked := Example.tag "a" [("href", href); ("rel", StrList ["nofollow"])] in
  let plain := Example.tag "a" [("href", href)] in
  let only_jpg := mkArgs "out" 1 1 50 [".jpg"] true in
  let recurse := parse_and_download Example.world (Example.args true) in
  resource_ext_of Example.world "http://example.com/" "/docs/manual.pdf" ∈ RESOURCE_TYPES
  ∧ resource_step Example.world (Example.args true) recurse
      "http://example.com/" "out/index.html" 0 "a" "href" marked initial_state
    = Return (marked, initial_state)
  ∧ resource_step Example.world only_jpg (parse_and_download Example.world only_jpg)
      "http://example.com/" "out/index.html" 0 "a" "href" plain initial_state
    = Return (plain, initial_state)
  ∧ download_queue initial_state = []
  ∧ attrs marked !! "href" = Some href
  ∧ attrs plain !! "href" = Some href.
Proof.
  repeat split; try reflexivity.
  vm_compute. repeat constructor.
Qed.

Lemma C10_witness :
  let plain := Example.tag "a" [("href", Str "/docs/manual.pdf")] in
  resource_step Example.world (Example.args true)
    (parse_and_download Example.world (Example.args true))
    "http://example.com/" "out/index.html" 0 "a" "href" plain initial_state
  = Return
      (Example.tag "a" [("href", Str "docs_manual.pdf")],
       queue_put "http://example.com/docs/manual.pdf" "out/docs_manual.pdf"
         (make_dirs "out" initial_state)).
Proof.
  intros plain.
  assert (resource_ext_of Example.world "http://example.com/" "/docs/manual.pdf"
            ∈ RESOURCE_TYPES) as Hext by (vm_compute; repeat constructor).
  destruct (C10_anchor_with_resource_extension_is_resource
              Example.world (Example.args true)
              (parse_and_download Example.world (Example.args true))
              "http://example.com/" "out/index.html" 0 plain "/docs/manual.pdf"
              initial_state eq_refl Hext) as [_ Hput].
  destruct Hput as (relative_path & Hrel & Hstep).
  - discriminate.
  - reflexivity.
  - left. reflexivity.
  - reflexivity.
  - vm_compute. set_solver.
  - rewrite Hstep. vm_compute in Hrel. injection Hrel as <-. reflexivity.
Defined.

(** ** The loops of the traversal *)

Lemma bind_Return {A B : Type} (m : result A) (k : A → result B) (b : B) :
  m ≫= k = Return b → ∃ a, m = Return a ∧ k a = Return b.
Proof. destruct m as [a | e |]; [eauto | done | done]. Qed.

Lemma fuelled_bind {A B : Type} (m : result A) (k : A → result B) :
  fuelled m → (∀ a, m = Return a → fuelled (k a)) → fuelled (m ≫= k).
Proof. destruct m as [a | e |]; [eauto | done | done]. Qed.

Section Loops.

Variable R : state → state → Prop.
Context `{!PreOrder R}.

Lemma for_find_all_preserves (body : Tag → state → result (Tag * state))
    (tag : string) (soup soup' : list Tag) (st st' : state) :
  (∀ r s r' s', body r s = Return (r', s') → R s s') →
  for_find_all body tag soup st = Return (soup', st') → R st st'.
Proof.
  intros Hbody. revert soup' st st'.
  induction soup as [|resource rest IH]; intros soup' st st' Hrun; simpl in Hrun.
  - by injection Hrun as <- <-.
  - destruct (String.eqb (tag_name resource) tag).
    + apply bind_Return in Hrun as ([r1 s1] & Hb & Hrun).
      apply bind_Return in Hrun as ([rest1 s2] & Hrest & Hrun).
      injection Hrun as <- <-. etrans; [by eapply Hbody | by eapply IH].
    + apply bind_Return in Hrun as ([rest1 s1] & Hrest & Hrun).
      injection Hrun as <- <-. by eapply IH.
Qed.

Lemma for_tags_preserves (body : string → string → Tag → state → result (Tag * state))
    (items : list (string * string)) (soup soup' : list Tag) (st st' : state) :
  (∀ tag attr r s r' s', body tag attr r s = Return (r', s') → R s s') →
  for_tags body items soup st = Return (soup', st') → R st st'.
Proof.
  intros Hbody. revert soup st.
  induction items as [|[tag attr] items IH]; intros soup st Hrun; simpl in Hrun.
  - by injection Hrun as <- <-.
  - apply bind_Return in Hrun as ([soup1 s1] & Hfind & Hrun).
    etrans; [| by eapply IH].
    eapply for_find_all_preserves; [| exact Hfind]. intros. by eapply Hbody.
Qed.

End Loops.

Lemma for_find_all_fuelled (body : Tag → state → result (Tag * state))
    (tag : string) (soup : list Tag) (st : state) :
  (∀ r s, fuelled (body r s)) → fuelled (for_find_all body tag soup st).
Proof.
  intros Hbody. revert st. induction soup as [|resource rest IH]; intros st; simpl.
  - done.
  - destruct (String.eqb (tag_name resource) tag).
    + apply fuelled_bind; [apply Hbody |]. intros [r1 s1] _.
      apply fuelled_bind; [apply IH |]. by intros [rest1 s2] _.
    + apply fuelled_bind; [apply IH |]. by intros [rest1 s1] _.
Qed.

Lemma for_tags_fuelled (body : string → string → Tag → state → result (Tag * state))
    (items : list (string * string)) (soup : list Tag) (st : state) :
  (∀ tag attr r s, fuelled (body tag attr r s)) → fuelled (for_tags body items soup st).
Proof.
  intros Hbody. revert soup st.
  induction items as [|[tag attr] items IH]; intros soup st; simpl; [done |].
  apply fuelled_bind; [by apply for_find_all_fuelled |]. intros [soup1 s1] _. apply IH.
Qed.

(** ** The discipline of the visited set *)

Lemma added_by_app (added : gset string) (t1 t2 : list event) :
  added_by added (t1 ++ t2) = added_by (added_by added t1) t2.
Proof.
  revert added. induction t1 as [|e t1 IH]; intros added; [done |].
  destruct e; simpl; apply IH.
Qed.

Lemma fetched_by_app (fetched : gset string) (t1 t2 : list event) :
  fetched_by fetched (t1 ++ t2) = fetched_by (fetched_by fetched t1) t2.
Proof.
  revert fetched. induction t1 as [|e t1 IH]; intros fetched; [done |].
  destruct e; simpl; apply IH.
Qed.

Lemma disciplined_app (puts : bool) (added fetched : gset string) (t1 t2 : list event) :
  disciplined puts added fetched (t1 ++ t2)
  = disciplined puts added fetched t1
    && disciplined puts (added_by added t1) (fetched_by fetched t1) t2.
Proof.
  revert added fetched. induction t1 as [|e t1 IH]; intros added fetched; [done |].
  destruct e; simpl; rewrite ?IH, ?andb_assoc; reflexivity.
Qed.

Lemma kept_benign (st st' : state) (e : event) :
  benign e → visited st' = visited st → trace st' = (trace st ++ [e])%list →
  kept st → kept st'.
Proof.
  intros He Hv Ht (Hd & Ha & Hf). unfold kept.
  rewrite Ht, Hv, disciplined_app, added_by_app, fetched_by_app, Hd.
  destruct e; try done; simpl; by rewrite ?Ha, ?Hf.
Qed.

Lemma kept_same_trace (st st' : state) :
  visited st' = visited st → trace st' = trace st → kept st → kept st'.
Proof. unfold kept. by intros -> ->. Qed.

Global Instance extends_preorder : PreOrder extends.
Proof.
  split.
  - by intros st.
  - intros s1 s2 s3 [Hv1 Hk1] [Hv2 Hk2]. split; [by etrans | auto].
Qed.

Lemma extends_emit (e : event) (st : state) : benign e → extends st (emit e st).
Proof. intros He. split; [done |]. by apply kept_benign with e. Qed.

Lemma extends_logging (r : log_record) (st : state) : extends st (logging r st).
Proof. split; [done |]. by apply kept_same_trace. Qed.

Lemma extends_make_dirs (path : string) (st : state) : extends st (make_dirs path st).
Proof. by apply extends_emit. Qed.

Lemma extends_queue_put (url save_path : string) (st : state) :
  extends st (queue_put url save_path st).
Proof. split; [done |]. by apply kept_benign with (Put url save_path). Qed.

Lemma extends_write_file (save_path content : string) (st : state) :
  extends st (write_file save_path content st).
Proof. split; [done |]. by apply kept_benign with (Open save_path). Qed.

(** Adding a URL that is not in [visited] and requesting it at once keeps
    the discipline. *)
Lemma extends_get_page (W : World) (url : string) (st : state) :
  url ∉ visited st → extends st (get_page W url (visited_add url st)).2.
Proof.
  intros Hnew.
  assert (visited (get_page W url (visited_add url st)).2 = {[url]} ∪ visited st
          ∧ trace (get_page W url (visited_add url st)).2
            = (trace st ++ [VisitedAdd url; Get url])%list) as [Hv Ht].
  { unfold get_page. simpl.
    destruct (requests_get W url) as [|response|response];
      [| destruct (raise_for_status response || broken response)..];
      simpl; by rewrite <- app_assoc. }
  split; [rewrite Hv; apply union_subseteq_r |].
  intros (Hd & Ha & Hf). unfold kept.
  rewrite Ht, Hv, disciplined_app, added_by_app, fetched_by_app, Hd, Ha, Hf. simpl.
  rewrite (bool_decide_eq_true_2 (url ∉ visited st)) by done.
  rewrite (bool_decide_eq_true_2 (url ∈ {[url]} ∪ visited st))
    by (apply elem_of_union_l; by apply elem_of_singleton).
  done.
Qed.

Section Recursion.

Variable W : World.
Variable A : Args.

Lemma resource_step_extends (recurse : string → Z → state → result state)
    (url save_path : string) (current_depth : Z) (tag attr : string)
    (resource resource' : Tag) (st st' : state) :
  (∀ u s s', recurse u (current_depth + 1) s = Return s' → extends s s') →
  resource_step W A recurse url save_path current_depth tag attr resource st
  = Return (resource', st') →
  extends st st'.
Proof.
  intros Hrec. unfold resource_step.
  repeat match goal with
         | |- context [if ?b then _ else _] => destruct b
         | |- context [match ?o with Some _ => _ | None => _ end] => destruct o
         | |- context [match ?v with Str _ => _ | StrList _ => _ end] => destruct v
         end;
    intros Hrun; try discriminate;
    try (injection Hrun as <- <-);
    try reflexivity;
    try apply extends_make_dirs.
  all: try (etrans; [apply extends_make_dirs | apply extends_queue_put]).
  all: apply bind_Return in Hrun as (s1 & Hcall & Hrun); injection Hrun as <- <-.
  all: etrans; [apply extends_make_dirs | by eapply Hrec].
Qed.

Lemma resource_step_fuelled (recurse : string → Z → state → result state)
    (url save_path : string) (current_depth : Z) (tag attr : string)
    (resource : Tag) (st : state) :
  (∀ u s, fuelled (recurse u (current_depth + 1) s)) →
  fuelled (resource_step W A recurse url save_path current_depth tag attr resource st).
Proof.
  intros Hrec. unfold resource_step.
  repeat match goal with
         | |- context [if ?b then _ else _] => destruct b
         | |- context [match ?o with Some _ => _ | None => _ end] => destruct o
         | |- context [match ?v with Str _ => _ | StrList _ => _ end] => destruct v
         end;
    try done.
  apply fuelled_bind; [apply Hrec | done].
Qed.

(** Every call of the traversal that returns has let [visited] grow and has
    kept the discipline. *)
Lemma parse_and_download_rec_extends (fuel : nat) (url : string) (current_depth : Z)
    (st st' : state) :
  parse_and_download_rec W A fuel url current_depth st = Return st' → extends st st'.
Proof.
  revert url current_depth st st'.
  induction fuel as [|fuel IH]; intros url current_depth st st';
    cbn [parse_and_download_rec]; [done |].
  destruct (current_depth >? max_depth A); [by intros [= <-] |].
  destruct (bool_decide (url ∈ visited st)) eqn:Hvis; [by intros [= <-] |].
  apply bool_decide_eq_false in Hvis.
  pose proof (extends_get_page W url st Hvis) as Hget.
  destruct (get_page W url (visited_add url st)) as [[html_content|] st1];
    simpl in Hget; [| by intros [= <-]].
  intros Hrun. apply bind_Return in Hrun as ([soup1 st2] & Hloop & Hrun).
  injection Hrun as <-.
  etrans; [exact Hget |]. etrans; [apply extends_make_dirs |].
  etrans; [| apply extends_emit; exact I].
  etrans; [| apply extends_logging].
  etrans; [| apply extends_write_file].
  eapply (for_tags_preserves extends); [| exact Hloop].
  intros tag attr r s r' s' Hstep.
  eapply resource_step_extends; [| exact Hstep]. intros u s0 s0'. apply IH.
Qed.

(** The recursion is one level deeper at each call and stops above
    [max_depth]: with more fuel than levels left, fuel does not run out. *)
Lemma parse_and_download_rec_total (fuel : nat) (url : string) (current_depth : Z)
    (st : state) :
  (Z.to_nat (max_depth A + 1 - current_depth) < fuel)%nat →
  fuelled (parse_and_download_rec W A fuel url current_depth st).
Proof.
  revert url current_depth st.
  induction fuel as [|fuel IH]; intros url current_depth st Hfuel; [lia |].
  cbn [parse_and_download_rec].
  destruct (current_depth >? max_depth A) eqn:Hd; [done |].
  destruct (bool_decide (url ∈ visited st)); [done |].
  destruct (get_page W url (visited_add url st)) as [[html_content|] st1]; [| done].
  apply fuelled_bind; [| by intros [soup1 st2] _].
  apply for_tags_fuelled. intros tag attr r s.
  apply resource_step_fuelled. intros u s0. apply IH. lia.
Qed.

Lemma parse_and_download_total (url : string) (current_depth : Z) (st : state) :
  fuelled (parse_and_download W A url current_depth st).
Proof. apply parse_and_download_rec_total. lia. Qed.

Lemma parse_and_download_extends (url : string) (current_depth : Z) (st st' : state) :
  parse_and_download W A url current_depth st = Return st' → extends st st'.
Proof. apply parse_and_download_rec_extends. Qed.

End Recursion.

(** A run of the traversal from the empty [visited] set keeps the discipline
    for the pages: each URL is added to [visited] at most once, and requested
    at most once, after it was added; [visited] is the set of the URLs
    requested. *)
Lemma traversal_keeps_discipline (W : World) (A : Args) (url : string)
    (current_depth : Z) (st : state) :
  parse_and_download W A url current_depth initial_state = Return st → kept st.
Proof.
  intros Hrun. apply parse_and_download_extends in Hrun as [_ Hkept].
  apply Hkept. by repeat split.
Qed.

(** C1 (the program departs from the claim here). Line 144 looks a resource
    URL up in [visited] before line 146 puts it on the queue, but no line
    adds it: on the example site the image referenced twice by the seed page
    is put on the queue twice and is not in [visited] at the end, so the trace
    breaks the discipline once the puts are counted in.  For the pages the
    discipline holds ([traversal_keeps_discipline]). *)
Theorem C1_resource_urls_are_put_but_never_added :
  ∃ st,
    Example.run false = Return st
    ∧ download_queue st
      = [ Pair (Some "http://example.com/img/a.png") "out/img_a.png";
          Pair (Some "http://example.com/img/a.png") "out/img_a.png";
          Pair (Some "http://example.com/docs/manual.pdf") "out/docs_manual.pdf" ]
    ∧ elements (visited st) = ["http://example.com/"]
    ∧ disciplined true ∅ ∅ (trace st) = false
    ∧ disciplined false ∅ ∅ (trace st) = true.
Proof.
  eexists. split; [vm_compute; reflexivity |].
  repeat apply conj; vm_compute; reflexivity.
Qed.

(** C4 (the program departs from the claim here). The seed page of the
    example site is computed the path [out/index.html] and its image is given
    the destination [out/img_a.png]; the value written into [src] is the
    relative path between the two, [img_a.png], as it is for every accepted
    reference ([accepted_resource_is_put_and_rewritten]).  But the page is written to
    [out_index.html] (line 152) and the worker writes the image to
    [out_img_a.png] (line 67): resolved from where the page is, or from where
    it was meant to be, the reference does not name the file written. *)
Theorem C4_rewritten_reference_misses_the_file_written :
  let seed := "http://example.com/" in
  let img := Example.tag "img" [("src", Str "/img/a.png")] in
  let st0 := visited_add seed initial_state in
  page_save_path Example.world (Example.args false) seed = "out/index.html"
  ∧ resource_step Example.world (Example.args false)
      (parse_and_download Example.world (Example.args false))
      seed "out/index.html" 0 "img" "src" img st0
    = Return (Example.tag "img" [("src", Str "img_a.png")],
              queue_put "http://example.com/img/a.png" "out/img_a.png"
                (make_dirs "out" st0))
  ∧ posixpath.relpath "/home/user" "out/img_a.png" (posixpath.dirname "out/index.html")
    = Some "img_a.png"
  ∧ (∃ st, Example.run false = Return st
           ∧ map fst (map_to_list (files st)) = ["out_index.html"])
  ∧ save_file Example.world "http://example.com/img/a.png" "out/img_a.png" 50 ∅
    = Return (true, {["out_img_a.png" := "PNGabc"]}, InfoFileSaved "out_img_a.png")
  ∧ resolve_from "out_index.html" "img_a.png" = "img_a.png"
  ∧ resolve_from "out/index.html" "img_a.png" = "out/img_a.png"
  ∧ "img_a.png" ≠ "out_img_a.png"
  ∧ "out/img_a.png" ≠ "out_img_a.png".
Proof.
  repeat apply conj; try (vm_compute; reflexivity); try discriminate.
  eexists. split; vm_compute; reflexivity.
Qed.

(** ** Failures of the transport *)





Local Open Scope list_scope.

(** ** The worker threads *)

Lemma lookup_insert_split {A : Type} (l : list A) (i : nat) (x y : A) :
  l !! i = Some x →
  ∃ l1 l2, l = (l1 ++ x :: l2)%list ∧ <[i := y]> l = (l1 ++ y :: l2)%list.
Proof.
  intros Hl. exists (take i l), (drop (S i) l). split.
  - symmetry. by apply take_drop_middle.
  - apply insert_take_drop. by eapply lookup_lt_Some.
Qed.

Lemma tally_middle (f : Pool.worker → nat) (l1 l2 : list Pool.worker) (w : Pool.worker) :
  Pool.tally f (l1 ++ w :: l2) = (Pool.tally f l1 + f w + Pool.tally f l2)%nat.
Proof. unfold Pool.tally. rewrite sum_list_with_app. simpl. lia. Qed.

Lemma tally_insert (f : Pool.worker → nat) (ws : list Pool.worker) (i : nat)
    (w w' : Pool.worker) :
  ws !! i = Some w →
  (Pool.tally f (<[i := w']> ws) + f w = Pool.tally f ws + f w')%nat.
Proof.
  intros Hw. destruct (lookup_insert_split ws i w w' Hw) as (l1 & l2 & -> & ->).
  rewrite !tally_middle. lia.
Qed.

Lemma saving_insert (ws : list Pool.worker) (i : nat) (w w' : Pool.worker) :
  ws !! i = Some w →
  (<[i := w']> ws ≫= Pool.saving) ++ Pool.saving w ≡ₚ (ws ≫= Pool.saving) ++ Pool.saving w'.
Proof.
  intros Hw. destruct (lookup_insert_split ws i w w' Hw) as (l1 & l2 & -> & ->).
  rewrite !bind_app, !bind_cons. solve_Permutation.
Qed.

Lemma tally_zero (f : Pool.worker → nat) (ws : list Pool.worker) :
  Forall (λ w, f w = O) ws → Pool.tally f ws = O.
Proof.
  unfold Pool.tally. induction 1 as [|w ws Hw _ IH]; simpl; [done | lia].
Qed.

Lemma tally_zero_inv (f : Pool.worker → nat) (ws : list Pool.worker) :
  Pool.tally f ws = O → Forall (λ w, f w = O) ws.
Proof.
  unfold Pool.tally. induction ws as [|w ws IH]; simpl; intros H; constructor; [lia |].
  apply IH. lia.
Qed.

Lemma tally_all (f : Pool.worker → nat) (ws : list Pool.worker) :
  Forall (λ w, f w = 1%nat) ws → Pool.tally f ws = length ws.
Proof.
  unfold Pool.tally. induction 1 as [|w ws Hw _ IH]; simpl; [done | lia].
Qed.

Lemma saving_none (ws : list Pool.worker) :
  Forall (λ w, Pool.saving w = []) ws → ws ≫= Pool.saving = [].
Proof. induction 1 as [|w ws Hw _ IH]; [done |]. by rewrite bind_cons, Hw, IH. Qed.

(** [save_file] raises nothing but the [ValueError] of line 61, on a
    response that is no error and whose length does not read. *)
Lemma save_file_raises (W : World) (url save_path : string) (max_size : Z)
    (fs : gmap string string) (e : exn) :
  save_file W url save_path max_size fs = Raise e →
  e = ValueError ∧ length_reads W url = false.
Proof.
  unfold save_file, length_reads.
  destruct (requests_get W url) as [|r|r]; [done | |].
  - destruct (raise_for_status r); [done |].
    destruct (default 0 (content_length r) >? max_size * 1024 * 1024); [done |].
    by destruct (broken r).
  - destruct (raise_for_status r); [done |]. by intros [= <-].
Qed.

Lemma save_file_fuelled (W : World) (url save_path : string) (max_size : Z)
    (fs : gmap string string) :
  fuelled (save_file W url save_path max_size fs).
Proof.
  unfold save_file, fuelled.
  destruct (requests_get W url) as [|r|r]; [done | |].
  - destruct (raise_for_status r); [done |].
    destruct (default 0 (content_length r) >? max_size * 1024 * 1024); [done |].
    by destruct (broken r).
  - by destruct (raise_for_status r).
Qed.

Section Workers.

Variable W : World.
Variable max_size : Z.
Variable threads : nat.
Variable tasks : list (string * string).

Local Abbreviation invariant := (Pool.invariant threads tasks).
Local Abbreviation working := (Pool.working threads tasks).
Local Abbreviation stopping := (Pool.stopping threads tasks).

Lemma invariant_initial : invariant (Pool.initial threads).
Proof. unfold Pool.invariant. simpl. repeat split; first [lia | constructor]. Qed.

Lemma main_invariant (c c' : Pool.config) :
  invariant c → Pool.main threads tasks c = Some c' → invariant c'.
Proof.
  unfold Pool.invariant, Pool.main.
  destruct (Pool.pc c) as [[|k] | [|[url save_path] rest] | | [|k] | i | | e] eqn:Hmain.
  - (* the threads are started: the traversal begins *)
    intros (Hlen & Hws & Hq & Hu & Ho) [= <-]. simpl.
    unfold Pool.working, Pool.settled, Pool.in_hand, Pool.waiting. simpl.
    rewrite Hq, Hu, Ho. simpl.
    rewrite !tally_zero by (eapply Forall_impl; [exact Hws | by intros w ->]).
    rewrite saving_none by (eapply Forall_impl; [exact Hws | by intros w ->]).
    split; [lia |]. split; [eapply Forall_impl; [exact Hws | intros w ->; by left] |].
    split; [constructor |]. split; [done |].
    exists []. split; [done |]. simpl. by rewrite app_nil_r.
  - (* one more thread is started *)
    intros (Hlen & Hws & Hq & Hu & Ho) [= <-]. simpl.
    rewrite length_app. simpl. repeat split; [lia | | done..].
    apply Forall_app. split; [done | by constructor].
  - (* the traversal is over *)
    by intros Hinv [= <-].
  - (* the traversal puts a pair *)
    intros (Hlen & Hws & Hq & Hu & lost & Hlost & Hperm) [= <-].
    unfold Pool.working, Pool.settled, Pool.in_hand, Pool.waiting in *. simpl.
    rewrite length_app, bind_app. simpl.
    split; [done |]. split; [done |].
    split; [apply Forall_app; split; [done |]; constructor; [eauto | constructor] |].
    split; [lia |]. exists lost. split; [done |].
    rewrite <- Hperm. solve_Permutation.
  - (* the queue is joined *)
    intros (Hlen & Hws & Hq & Hu & lost & Hlost & Hperm).
    destruct (Pool.unfinished_tasks c =? 0) eqn:Hzero; [| done]. intros [= <-].
    unfold Pool.stopping, Pool.settled, Pool.in_hand, Pool.waiting in *. simpl.
    assert (Pool.queue c = []) as Hempty by (destruct (Pool.queue c); [done | simpl in Hu; lia]).
    assert (Pool.tally Pool.busy (Pool.workers c) = O) as Hbusy by lia.
    apply tally_zero_inv in Hbusy.
    assert (Forall (λ w, w = Pool.AtGet) (Pool.workers c)) as Hget.
    { apply Forall_lookup. intros j w Hw.
      pose proof (proj1 (Forall_lookup _ _) Hws j w Hw) as Hterm.
      pose proof (proj1 (Forall_lookup _ _) Hbusy j w Hw) as Hidle.
      destruct w; simpl in *; try done. by destruct Hterm. }
    rewrite Hempty in *. simpl in *.
    rewrite saving_none in Hperm by (eapply Forall_impl; [exact Hget | by intros w ->]).
    rewrite tally_zero in Hlost by (eapply Forall_impl; [exact Hget | by intros w ->]).
    apply length_zero_iff_nil in Hlost as ->.
    rewrite tally_zero by (eapply Forall_impl; [exact Hget | by intros w ->]).
    repeat split; try done; try lia; try (by constructor).
    + eapply Forall_impl; [exact Hget | by left].
    + rewrite <- Hperm. simpl. by rewrite !app_nil_r.
  - (* the stop signals are out *)
    intros Hinv [= <-]. simpl. split; [done |]. intros j w Hj. lia.
  - (* one more stop signal is put *)
    intros (Hlen & Hws & Hq & Hcount & Hu & Hperm) [= <-].
    unfold Pool.stopping in *. simpl. rewrite length_app. simpl.
    repeat split; [done | done | | lia | lia | done].
    apply Forall_app. split; [done | by repeat constructor].
  - (* a thread is joined, or all of them have been *)
    intros [Hstop Hjoined].
    destruct (Pool.workers c !! i) as [w|] eqn:Hw.
    + destruct (Pool.terminated w) eqn:Hterm; [| done]. intros [= <-]. simpl.
      split; [done |]. intros j w' Hj Hw'.
      destruct (decide (j = i)) as [-> | Hne]; [| apply (Hjoined j); [lia | done]].
      destruct Hstop as (_ & Hws & _).
      pose proof (proj1 (Forall_lookup _ _) Hws i w Hw) as [-> | ->]; [done |].
      congruence.
    + intros [= <-]. simpl. split; [done |].
      apply Forall_lookup. intros j w Hw'. apply (Hjoined j); [| done].
      apply lookup_ge_None in Hw. apply lookup_lt_Some in Hw'. lia.
  - done.
  - done.
Qed.

Lemma working_download_worker (i : nat) (c c' : Pool.config) (rest : list (string * string)) :
  working c rest → Pool.download_worker W max_size i c = Some c' → working c' rest.
Proof.
  intros (Hlen & Hws & Hq & Hu & lost & Hlost & Hperm). unfold Pool.download_worker.
  destruct (Pool.workers c !! i) as [w|] eqn:Hw; [| done].
  pose proof (tally_insert Pool.busy (Pool.workers c) i w) as Hbusy.
  pose proof (tally_insert Pool.died (Pool.workers c) i w) as Hdied.
  pose proof (saving_insert (Pool.workers c) i w) as Hsaving.
  destruct w as [| url save_path | | |]; try done.
  - (* get *)
    destruct (Pool.queue c) as [|it q] eqn:Hqueue; [done |]. intros [= <-].
    apply Forall_cons in Hq as [(url & save_path & ->) Hq].
    specialize (Hbusy (Pool.AtSave url save_path) Hw).
    specialize (Hdied (Pool.AtSave url save_path) Hw).
    specialize (Hsaving (Pool.AtSave url save_path) Hw).
    unfold Pool.working, Pool.settled, Pool.in_hand, Pool.waiting in *.
    rewrite Hqueue, bind_cons in Hperm. simpl in *.
    rewrite length_insert.
    split; [done |]. split; [apply Forall_insert; [done | by left] |].
    split; [done |]. split; [lia |]. exists lost. split; [lia |].
    rewrite <- Hperm. rewrite app_nil_r in Hsaving. rewrite Hsaving.
    solve_Permutation.
  - (* save_file *)
    destruct (save_file W url save_path max_size (Pool.disk c)) as [[[ok fs] r] | e |]
      eqn:Hsave; [| | done]; intros [= <-].
    + (* it returns *)
      specialize (Hbusy Pool.AtTaskDone Hw). specialize (Hdied Pool.AtTaskDone Hw).
      specialize (Hsaving Pool.AtTaskDone Hw).
      unfold Pool.working, Pool.settled, Pool.in_hand, Pool.waiting in *. simpl in *.
      rewrite length_insert, fmap_app. simpl.
      split; [done |]. split; [apply Forall_insert; [done | by left] |].
      split; [done |]. split; [lia |]. exists lost. split; [lia |].
      rewrite <- Hperm. rewrite app_nil_r in Hsaving. rewrite <- Hsaving.
      solve_Permutation.
    + (* it raises *)
      apply save_file_raises in Hsave as [-> _].
      specialize (Hbusy (Pool.Died ValueError) Hw).
      specialize (Hdied (Pool.Died ValueError) Hw).
      specialize (Hsaving (Pool.Died ValueError) Hw).
      unfold Pool.working, Pool.settled, Pool.in_hand, Pool.waiting in *. simpl in *.
      rewrite length_insert.
      split; [done |]. split; [apply Forall_insert; [done | by right] |].
      split; [done |]. split; [lia |].
      exists ((url, save_path) :: lost). split; [simpl; lia |].
      rewrite <- Hperm. rewrite app_nil_r in Hsaving. rewrite <- Hsaving.
      solve_Permutation.
  - (* task_done *)
    intros [= <-].
    specialize (Hbusy Pool.AtGet Hw). specialize (Hdied Pool.AtGet Hw).
    specialize (Hsaving Pool.AtGet Hw).
    unfold Pool.working, Pool.settled, Pool.in_hand, Pool.waiting in *. simpl in *.
    rewrite length_insert.
    split; [done |]. split; [apply Forall_insert; [done | by left] |].
    split; [done |]. split; [lia |]. exists lost. split; [lia |].
    rewrite <- Hperm. rewrite !app_nil_r in Hsaving. by rewrite Hsaving.
Qed.

Lemma stopping_download_worker (i : nat) (c c' : Pool.config) (k : nat) :
  stopping c k → Pool.download_worker W max_size i c = Some c' →
  stopping c' k
  ∧ Pool.pc c' = Pool.pc c
  ∧ Pool.workers c !! i = Some Pool.AtGet
  ∧ Pool.workers c' = <[i := Pool.Died TypeError]> (Pool.workers c).
Proof.
  intros (Hlen & Hws & Hq & Hcount & Hu & Hperm). unfold Pool.download_worker.
  destruct (Pool.workers c !! i) as [w|] eqn:Hw; [| done].
  pose proof (proj1 (Forall_lookup _ _) Hws i w Hw) as [-> | ->]; [| done].
  pose proof (tally_insert Pool.died (Pool.workers c) i _ (Pool.Died TypeError) Hw) as Hdied.
  destruct (Pool.queue c) as [|it q] eqn:Hqueue; [done |]. intros [= <-].
  apply Forall_cons in Hq as [-> Hq].
  unfold Pool.stopping. simpl in *. rewrite length_insert.
  repeat split; try done; try lia.
  apply Forall_insert; [done | by right].
Qed.

Lemma download_worker_invariant (i : nat) (c c' : Pool.config) :
  invariant c → Pool.download_worker W max_size i c = Some c' → invariant c'.
Proof.
  unfold Pool.invariant. intros Hinv Hstep.
  assert (Pool.pc c' = Pool.pc c) as Hmain.
  { unfold Pool.download_worker in Hstep.
    destruct (Pool.workers c !! i) as [[| url save_path | | |]|]; try done.
    - destruct (Pool.queue c); [done |]. by injection Hstep as <-.
    - destruct (save_file W url save_path max_size (Pool.disk c)) as [[[ok fs] r] | e |];
        [| | done]; by injection Hstep as <-.
    - by injection Hstep as <-. }
  rewrite Hmain.
  destruct (Pool.pc c) as [k | rest | | k | j | | e].
  - (* no worker moves before the traversal: the queue is empty *)
    destruct Hinv as (Hlen & Hws & Hq & Hu & Ho). unfold Pool.download_worker in Hstep.
    destruct (Pool.workers c !! i) as [w|] eqn:Hw; [| done].
    pose proof (proj1 (Forall_lookup _ _) Hws i w Hw) as ->.
    by rewrite Hq in Hstep.
  - by eapply working_download_worker.
  - by eapply working_download_worker.
  - by eapply (stopping_download_worker i c c' k).
  - destruct Hinv as [Hstop Hjoined].
    destruct (stopping_download_worker i c c' 0 Hstop Hstep) as (Hstop' & _ & Hw & ->).
    split; [done |]. intros j' w Hj Hw'.
    destruct (decide (j' = i)) as [-> | Hne].
    + rewrite list_lookup_insert_eq in Hw' by (by eapply lookup_lt_Some). congruence.
    + rewrite list_lookup_insert_ne in Hw' by done. by eapply Hjoined.
  - destruct Hinv as [Hstop Hall].
    destruct (stopping_download_worker i c c' 0 Hstop Hstep) as (Hstop' & _ & Hw & ->).
    pose proof (proj1 (Forall_lookup _ _) Hall i _ Hw). done.
  - destruct Hinv as [rest Hwork]. exists rest. by eapply working_download_worker.
Qed.

(** Every configuration a run can reach satisfies the invariant. *)
Lemma reachable_invariant (c : Pool.config) :
  Pool.reachable W max_size threads tasks c → invariant c.
Proof.
  unfold Pool.reachable. revert c.
  apply (rtc_ind_r (R := Pool.step W max_size threads tasks)
           (λ c, invariant c) (Pool.initial threads)).
  - apply invariant_initial.
  - intros c1 c2 _ [Hstep | i Hstep | e puts Hpc ->] Hinv.
    + by eapply main_invariant.
    + by eapply download_worker_invariant.
    + unfold Pool.invariant in *. rewrite Hpc in Hinv. simpl. by exists puts.
Qed.

Lemma first_worker_step (n i : nat) (c c' : Pool.config) :
  Pool.first_worker W max_size n i c = Some c' →
  ∃ j, Pool.download_worker W max_size j c = Some c'.
Proof.
  revert i. induction n as [|n IH]; intros i; simpl; [done |].
  destruct (Pool.download_worker W max_size i c) as [c1|] eqn:Hstep; [| apply IH].
  intros [= <-]. eauto.
Qed.

(** What the scheduler computes is a run. *)
Lemma schedule_run (fuel : nat) (c : Pool.config) :
  rtc (Pool.step W max_size threads tasks) c
    (Pool.schedule W max_size threads tasks fuel c).
Proof.
  revert c. induction fuel as [|fuel IH]; intros c; simpl; [done |].
  destruct (Pool.main threads tasks c) as [c1|] eqn:Hmain.
  - eapply rtc_l; [by apply Pool.step_of_main | apply IH].
  - destruct (Pool.first_worker W max_size (length (Pool.workers c)) 0 c) as [c1|] eqn:Hw;
      [| done].
    apply first_worker_step in Hw as [j Hj].
    eapply rtc_l; [by eapply Pool.step_of_worker | apply IH].
Qed.

(** Once the queue has been joined every task of the run has reached a
    terminal state, and the queue holds stop signals only. *)
Lemma tasks_settled_before_stop (c : Pool.config) :
  Pool.reachable W max_size threads tasks c →
  match Pool.pc c with
  | Pool.Stopping _ | Pool.JoiningThreads _ | Pool.Finished =>
      Pool.settled c ≡ₚ tasks ∧ Forall (λ it, it = PyNone) (Pool.queue c)
  | _ => True
  end.
Proof.
  intros Hinv%reachable_invariant. unfold Pool.invariant in Hinv.
  destruct (Pool.pc c); try done.
  - by destruct Hinv as (_ & _ & ? & _ & _ & ?).
  - by destruct Hinv as [(_ & _ & ? & _ & _ & ?) _].
  - by destruct Hinv as [(_ & _ & ? & _ & _ & ?) _].
Qed.

(** At the end every worker has taken one stop signal and died of it: the
    queue is empty, its counter stands at the [threads] signals that no
    [task_done] answered. *)
Lemma finished_pool (c : Pool.config) :
  Pool.reachable W max_size threads tasks c →
  Pool.pc c = Pool.Finished →
  Pool.workers c = replicate threads (Pool.Died TypeError)
  ∧ Pool.queue c = []
  ∧ Pool.unfinished_tasks c = Z.of_nat threads
  ∧ Pool.settled c ≡ₚ tasks.
Proof.
  intros Hinv%reachable_invariant Hmain. unfold Pool.invariant in Hinv.
  rewrite Hmain in Hinv. destruct Hinv as [(Hlen & _ & _ & Hcount & Hu & Hperm) Hall].
  rewrite tally_all in Hcount by (eapply Forall_impl; [exact Hall | by intros w ->]).
  repeat split; [| | lia | done].
  - rewrite <- Hlen. clear -Hall.
    induction Hall as [|w ws -> _ IH]; [done |]. simpl. by rewrite <- IH.
  - destruct (Pool.queue c); [done | simpl in Hcount; lia].
Qed.

(** No worker ever leaves its loop through the [break] of line 89. *)
Lemma break_never_taken (c : Pool.config) :
  Pool.reachable W max_size threads tasks c →
  Forall (λ w, w ≠ Pool.Exited) (Pool.workers c).
Proof.
  intros Hinv%reachable_invariant. unfold Pool.invariant in Hinv.
  assert (∀ rest, working c rest → Forall (λ w, w ≠ Pool.Exited) (Pool.workers c))
    as Hworking.
  { intros rest (_ & Hws & _).
    eapply Forall_impl; [exact Hws |]. intros w [Hterm | ->]; [by destruct w | done]. }
  destruct (Pool.pc c).
  - destruct Hinv as (_ & Hws & _). eapply Forall_impl; [exact Hws | by intros w ->].
  - by eapply Hworking.
  - by eapply Hworking.
  - destruct Hinv as (_ & Hws & _).
    eapply Forall_impl; [exact Hws | by intros w [-> | ->]].
  - destruct Hinv as [(_ & Hws & _) _].
    eapply Forall_impl; [exact Hws | by intros w [-> | ->]].
  - destruct Hinv as [(_ & Hws & _) _].
    eapply Forall_impl; [exact Hws | by intros w [-> | ->]].
  - destruct Hinv as [rest Hwork]. by eapply Hworking.
Qed.

End Workers.

(** ** When the pool shuts down

    Every step lowers [Pool.measure], so a run is over after at most
    [Pool.measure] steps.  When the traversal returns to [main] and the
    length of every response can be read, no worker dies before the stop
    signals, and with at least one worker a run that has not finished is
    never stuck: however the threads are scheduled it ends with the main
    thread at its end. *)

Lemma tally_positive (f : Pool.worker → nat) (ws : list Pool.worker) :
  (0 < Pool.tally f ws)%nat → ∃ i w, ws !! i = Some w ∧ (0 < f w)%nat.
Proof.
  unfold Pool.tally. induction ws as [|w ws IH]; simpl; [lia |]. intros Hpos.
  destruct (decide (0 < f w)%nat) as [Hw | Hw].
  - by exists O, w.
  - destruct IH as (i & w' & Hi & Hw'); [lia |]. by exists (S i), w'.
Qed.

Lemma tally_bound (f : Pool.worker → nat) (ws : list Pool.worker) (i : nat)
    (w : Pool.worker) :
  (∀ w, f w ≤ 1)%nat → ws !! i = Some w → f w = O →
  (Pool.tally f ws < length ws)%nat.
Proof.
  intros Hf Hw Hzero.
  destruct (lookup_insert_split ws i w w Hw) as (l1 & l2 & -> & _).
  rewrite tally_middle, length_app. simpl.
  assert (∀ l, Pool.tally f l ≤ length l)%nat as Hle.
  { unfold Pool.tally. induction l as [|x l IH]; simpl; [lia |].
    specialize (Hf x). lia. }
  pose proof (Hle l1). pose proof (Hle l2). lia.
Qed.

Section Liveness.

Variable W : World.
Variable max_size : Z.
Variable threads : nat.
Variable tasks : list (string * string).

Local Abbreviation step := (Pool.step W max_size threads tasks).
Local Abbreviation measure := (Pool.measure threads tasks).

(** Every step brings the end nearer. *)
Lemma step_decreases (c c' : Pool.config) :
  step c c' → (measure c' < measure c)%nat.
Proof.
  unfold Pool.measure, Pool.main_measure.
  intros [Hstep | i Hstep | e puts Hpc ->].
  - unfold Pool.main in Hstep.
    destruct (Pool.pc c) as [[|k] | [|[url save_path] rest] | | [|k] | i | | e] eqn:Hmain;
      try (injection Hstep as <-; simpl; unfold Pool.tally;
           rewrite ?length_app, ?sum_list_with_app; simpl; lia).
    + destruct (Pool.unfinished_tasks c =? 0); [| done].
      injection Hstep as <-. simpl. lia.
    + destruct (Pool.workers c !! i) as [w|] eqn:Hw.
      * destruct (Pool.terminated w); [| done]. injection Hstep as <-. simpl.
        apply lookup_lt_Some in Hw. lia.
      * injection Hstep as <-. simpl. lia.
    + done.
    + done.
  - unfold Pool.download_worker in Hstep.
    destruct (Pool.workers c !! i) as [w|] eqn:Hw; [| done].
    pose proof (tally_insert Pool.load (Pool.workers c) i w) as Hload.
    destruct w as [| url save_path | | |]; try done.
    + destruct (Pool.queue c) as [|it q]; [done |]. injection Hstep as <-. simpl.
      specialize (Hload (Pool.unpack it) Hw). rewrite length_insert.
      destruct (Pool.pc c); destruct it as [[u|] p|]; simpl in *; lia.
    + destruct (save_file W url save_path max_size (Pool.disk c)) as [[[ok fs] r] | e |];
        [| | done]; injection Hstep as <-; simpl.
      * specialize (Hload Pool.AtTaskDone Hw). rewrite length_insert.
        destruct (Pool.pc c); simpl in *; lia.
      * specialize (Hload (Pool.Died e) Hw). rewrite length_insert.
        destruct (Pool.pc c); simpl in *; lia.
    + injection Hstep as <-. simpl.
      specialize (Hload Pool.AtGet Hw). rewrite length_insert.
      destruct (Pool.pc c); simpl in *; lia.
  - rewrite Hpc. simpl. lia.
Qed.


(** The main thread does not touch the states of the workers; it starts
    them. *)
Lemma main_workers (c c' : Pool.config) :
  Pool.main threads tasks c = Some c' →
  (Pool.workers c' = Pool.workers c ∨ Pool.workers c' = Pool.workers c ++ [Pool.AtGet])
  ∧ ∀ e, Pool.pc c' ≠ Pool.Aborted e.
Proof.
  unfold Pool.main.
  destruct (Pool.pc c) as [[|k] | [|[url save_path] rest] | | [|k] | i | | e];
    try (intros [= <-]; simpl; by auto).
  - destruct (Pool.unfinished_tasks c =? 0); [| done]. intros [= <-]. simpl. by auto.
  - destruct (Pool.workers c !! i) as [w|]; [destruct (Pool.terminated w) |];
      try done; intros [= <-]; simpl; by auto.
Qed.

Lemma download_worker_pc (i : nat) (c c' : Pool.config) :
  Pool.download_worker W max_size i c = Some c' → Pool.pc c' = Pool.pc c.
Proof.
  unfold Pool.download_worker.
  destruct (Pool.workers c !! i) as [[| url save_path | | |]|]; try done.
  - destruct (Pool.queue c); [done |]. by intros [= <-].
  - destruct (save_file W url save_path max_size (Pool.disk c)) as [[[ok fs] r] | e |];
      [| | done]; by intros [= <-].
  - by intros [= <-].
Qed.

(** The task a worker hands to [save_file] is a task of the run. *)
Lemma saving_are_tasks (c : Pool.config) (i : nat) (url save_path : string) :
  Pool.reachable W max_size threads tasks c →
  Pool.workers c !! i = Some (Pool.AtSave url save_path) →
  (url, save_path) ∈ tasks.
Proof.
  intros Hinv%reachable_invariant Hw. unfold Pool.invariant in Hinv.
  assert (∀ rest, Pool.working threads tasks c rest → (url, save_path) ∈ tasks)
    as Hworking.
  { intros rest (_ & _ & _ & _ & lost & _ & Hperm). rewrite <- Hperm.
    apply elem_of_app. right. apply elem_of_app. left.
    unfold Pool.in_hand. apply list_elem_of_bind.
    exists (Pool.AtSave url save_path). split; [by left |].
    by eapply list_elem_of_lookup_2. }
  assert (∀ k, Pool.stopping threads tasks c k → (url, save_path) ∈ tasks)
    as Hstopping.
  { intros k (_ & Hws & _).
    by destruct (proj1 (Forall_lookup _ _) Hws i _ Hw). }
  destruct (Pool.pc c); try by eauto.
  - destruct Hinv as (_ & Hws & _).
    by pose proof (proj1 (Forall_lookup _ _) Hws i _ Hw).
  - destruct Hinv as [Hstop _]. by eauto.
  - destruct Hinv as [Hstop _]. by eauto.
  - destruct Hinv as [rest Hwork]. by eauto.
Qed.

(** When the length of the response can be read for every task, no worker
    dies in [save_file]. *)
Lemma readable_tasks_kill_no_worker (c : Pool.config) :
  Forall (λ task, length_reads W task.1 = true) tasks →
  Pool.reachable W max_size threads tasks c →
  Forall (λ w, w ≠ Pool.Died ValueError) (Pool.workers c).
Proof.
  intros Hreads. unfold Pool.reachable. revert c.
  apply (rtc_ind_r (R := Pool.step W max_size threads tasks)
           (λ c, Forall (λ w, w ≠ Pool.Died ValueError) (Pool.workers c))
           (Pool.initial threads)).
  - constructor.
  - intros c1 c2 Hreach [Hstep | i Hstep | e puts Hpc ->] IH; [| | done].
    + apply main_workers in Hstep as [[-> | ->] _]; [done |].
      apply Forall_app. split; [done | by repeat constructor].
    + pose proof (saving_are_tasks c1 i) as Htask.
      unfold Pool.download_worker in Hstep.
      destruct (Pool.workers c1 !! i) as [[| url save_path | | |]|] eqn:Hw; try done.
      * destruct (Pool.queue c1) as [|it q]; [done |]. injection Hstep as <-. simpl.
        apply Forall_insert; [done |]. by destruct it as [[u|] p|].
      * specialize (Htask url save_path Hreach eq_refl).
        apply (proj1 (Forall_forall _ _) Hreads) in Htask. simpl in Htask.
        destruct (save_file W url save_path max_size (Pool.disk c1))
          as [[[ok fs] r] | e |] eqn:Hsave; [| | done].
        -- injection Hstep as <-. simpl. by apply Forall_insert.
        -- apply save_file_raises in Hsave as [_ Hsave]. congruence.
      * injection Hstep as <-. simpl. by apply Forall_insert.
Qed.

(** With at least one worker and every length readable, a thread can take a
    step as long as the main thread has neither finished nor been ended by
    an exception of the traversal. *)
Lemma progress (c : Pool.config) :
  (0 < threads)%nat →
  Forall (λ task, length_reads W task.1 = true) tasks →
  Pool.reachable W max_size threads tasks c →
  Pool.pc c ≠ Pool.Finished →
  (∀ e, Pool.pc c ≠ Pool.Aborted e) →
  ∃ c', Pool.main threads tasks c = Some c'
        ∨ ∃ i, Pool.download_worker W max_size i c = Some c'.
Proof.
  intros Hthreads Hreads Hreach Hmain Hraise.
  pose proof (readable_tasks_kill_no_worker c Hreads Hreach) as Halive.
  pose proof (reachable_invariant _ _ _ _ _ Hreach) as Hinv.
  assert (∀ i w, Pool.workers c !! i = Some w → (0 < Pool.busy w)%nat →
                 Pool.terminated w = false →
                 ∃ c', Pool.main threads tasks c = Some c'
                       ∨ ∃ i, Pool.download_worker W max_size i c = Some c')
    as Hbusy_steps.
  { intros i w Hw Hbusy Hterm.
    destruct (Pool.download_worker W max_size i c) as [c'|] eqn:Hstep;
      [exists c'; right; by exists i |].
    unfold Pool.download_worker in Hstep. rewrite Hw in Hstep.
    destruct w as [| url save_path | | |]; simpl in Hbusy, Hterm; try lia; try done.
    pose proof (save_file_fuelled W url save_path max_size (Pool.disk c)) as Hfuel.
    by destruct (save_file W url save_path max_size (Pool.disk c)) as [[[ok fs] r] | e |]. }
  assert (∀ i it q, Pool.workers c !! i = Some Pool.AtGet → Pool.queue c = it :: q →
                    ∃ c', Pool.main threads tasks c = Some c'
                          ∨ ∃ i, Pool.download_worker W max_size i c = Some c')
    as Hget_steps.
  { intros i it q Hw Hq. eexists. right. exists i.
    unfold Pool.download_worker. rewrite Hw, Hq. reflexivity. }
  unfold Pool.invariant in Hinv.
  destruct (Pool.pc c) as [[|k] | [|[url save_path] rest] | | [|k] | i | | e] eqn:Hpc;
    try (eexists; left; unfold Pool.main; rewrite Hpc; reflexivity);
    [| | done | by destruct (Hraise e)].
  - (* the queue is being joined *)
    destruct Hinv as (Hlen & Hws & Hq & Hu & Hperm).
    assert (Forall (λ w, Pool.terminated w = false) (Pool.workers c)) as Hloop.
    { apply Forall_lookup. intros j w Hw.
      pose proof (proj1 (Forall_lookup _ _) Hws j w Hw) as [? | ->]; [done |].
      by pose proof (proj1 (Forall_lookup _ _) Halive j _ Hw). }
    destruct (Pool.unfinished_tasks c =? 0) eqn:Hzero.
    { eexists. left. unfold Pool.main. rewrite Hpc, Hzero. reflexivity. }
    destruct (decide (0 < Pool.tally Pool.busy (Pool.workers c))%nat) as [Hbusy | Hidle].
    + apply tally_positive in Hbusy as (i & w & Hw & Hb).
      eapply Hbusy_steps; [exact Hw | exact Hb |].
      exact (proj1 (Forall_lookup _ _) Hloop i w Hw).
    + destruct (Pool.queue c) as [|it q] eqn:Hqueue; [simpl in Hu; lia |].
      destruct (Pool.workers c) as [|w ws] eqn:Hworkers; [simpl in Hlen; lia |].
      assert (w = Pool.AtGet) as ->.
      { apply Forall_cons in Hloop as [Hterm _].
        unfold Pool.tally in Hidle. simpl in Hidle.
        destruct w; simpl in *; try done; lia. }
      by eapply (Hget_steps O).
  - (* the threads are being joined *)
    destruct Hinv as [(Hlen & Hws & Hq & Hcount & Hu & Hperm) Hjoined].
    destruct (Pool.workers c !! i) as [w|] eqn:Hw.
    + destruct (Pool.terminated w) eqn:Hterm.
      { eexists. left. unfold Pool.main. rewrite Hpc, Hw, Hterm. reflexivity. }
      pose proof (proj1 (Forall_lookup _ _) Hws i w Hw) as [-> | ->]; [| done].
      pose proof (tally_bound Pool.died (Pool.workers c) i _
                    ltac:(by intros []; simpl; lia) Hw eq_refl) as Hdied.
      destruct (Pool.queue c) as [|it q] eqn:Hqueue; [simpl in Hcount; lia |].
      by eapply Hget_steps.
    + eexists. left. unfold Pool.main. rewrite Hpc, Hw. reflexivity.
Qed.

(** Then every run can be completed, and however the threads are scheduled
    it is complete after at most [measure] steps. *)
Lemma runs_finish (c : Pool.config) :
  (0 < threads)%nat →
  Forall (λ task, length_reads W task.1 = true) tasks →
  Pool.reachable W max_size threads tasks c →
  (∀ e, Pool.pc c ≠ Pool.Aborted e) →
  ∃ c', rtc step c c' ∧ Pool.pc c' = Pool.Finished.
Proof.
  intros Hthreads Hreads Hreach.
  remember (S (measure c)) as n eqn:Hn.
  assert (measure c < n)%nat as Hlt by lia. clear Hn.
  revert c Hreach Hlt. induction n as [|n IH]; intros c Hreach Hlt Hraise; [lia |].
  assert (Pool.pc c = Pool.Finished ∨ Pool.pc c ≠ Pool.Finished) as [Hfin | Hrun]
    by (destruct (Pool.pc c); auto).
  { by exists c. }
  destruct (progress c Hthreads Hreads Hreach Hrun Hraise) as [c1 Hthread].
  assert (step c c1 ∧ ∀ e, Pool.pc c1 ≠ Pool.Aborted e) as [Hstep Hraise1].
  { destruct Hthread as [Hstep | [i Hstep]].
    - split; [by apply Pool.step_of_main | by apply main_workers in Hstep as [_ ?]].
    - split; [by eapply Pool.step_of_worker |].
      apply download_worker_pc in Hstep. by rewrite Hstep. }
  pose proof (step_decreases _ _ Hstep) as Hless.
  destruct (IH c1) as (c' & Hrtc & Hfin); [by eapply rtc_r | lia | done |].
  exists c'. split; [by eapply rtc_l | done].
Qed.

End Liveness.

(** C2 (the program departs from the claim here). The stop signal is a bare
    [None] (line 268), which line 87 cannot unpack into [url, save_path]: the
    worker that takes it dies of a [TypeError] before line 88 compares [url]
    with [None].  In every run no worker takes the [break]; when the main
    thread is through, each of the [threads] workers has died of the
    exception.  The rest of the claim holds: by then every task has reached a
    terminal state, exactly [threads] signals were put, after the queue was
    joined, each worker took one and none was handed to [save_file]. *)
Theorem C2_workers_die_of_the_stop_signal (W : World) (max_size : Z) (threads : nat)
    (tasks : list (string * string)) (c : Pool.config) :
  Pool.reachable W max_size threads tasks c →
  Pool.unpack PyNone = Pool.Died TypeError
  ∧ Forall (λ w, w ≠ Pool.Exited) (Pool.workers c)
  ∧ (Pool.pc c = Pool.Finished →
     Pool.workers c = replicate threads (Pool.Died TypeError)
     ∧ Pool.queue c = []
     ∧ Pool.unfinished_tasks c = Z.of_nat threads
     ∧ Pool.settled c ≡ₚ tasks).
Proof.
  intros Hreach. split; [reflexivity |]. split.
  - by eapply break_never_taken.
  - by eapply finished_pool.
Qed.

Lemma C2_witness :
  let tasks := [("http://example.com/img/a.png", "out/img_a.png");
                ("http://example.com/big.mp4", "out/big.mp4");
                ("http://example.com/err.png", "out/err.png")] in
  let c := Pool.schedule Example.world 50 2 tasks 40 (Pool.initial 2) in
  Pool.pc c = Pool.Finished
  ∧ Pool.workers c = [Pool.Died TypeError; Pool.Died TypeError]
  ∧ Pool.outcomes c
    = [ ("http://example.com/img/a.png", "out/img_a.png", Pool.Saved);
        ("http://example.com/big.mp4", "out/big.mp4", Pool.Skipped);
        ("http://example.com/err.png", "out/err.png", Pool.Failed) ]
  ∧ Forall (λ w, w ≠ Pool.Exited) (Pool.workers c).
Proof.
  intros tasks c.
  split; [vm_compute; reflexivity |].
  split; [vm_compute; reflexivity |].
  split; [vm_compute; reflexivity |].
  apply (C2_workers_die_of_the_stop_signal Example.world 50 2 tasks c).
  apply schedule_run.
Defined.

(** * Further properties *)

(** ** [sanitize_filename] *)

Lemma occurs_cons (c a : ascii) (s : string) :
  occurs c (String a s) = Ascii.eqb a c || occurs c s.
Proof. unfold occurs. simpl. by rewrite andb_true_r. Qed.

Lemma occurs_app (c : ascii) (a b : string) :
  occurs c (a +:+ b) = occurs c a || occurs c b.
Proof.
  induction a as [|x a IH]; [done |].
  by rewrite string_app_cons, !occurs_cons, IH, orb_assoc.
Qed.

Lemma sanitize_filename_app (a b : string) :
  sanitize_filename (a +:+ b) = sanitize_filename a +:+ sanitize_filename b.
Proof.
  induction a as [|x a IH]; [done |].
  rewrite string_app_cons. simpl. by rewrite IH.
Qed.

Lemma sanitize_filename_length (filename : string) :
  String.length (sanitize_filename filename) = String.length filename.
Proof. induction filename as [|a s IH]; simpl; [done | by rewrite IH]. Qed.

Lemma sanitize_filename_clean (filename : string) (c : ascii) :
  invalid_char c = true → occurs c (sanitize_filename filename) = false.
Proof.
  intros Hc. induction filename as [|a s IH]; [done |].
  cbn [sanitize_filename]. rewrite occurs_cons, IH, orb_false_r.
  apply Ascii.eqb_neq. intros Heq.
  destruct (invalid_char a) eqn:Ha; subst; [by vm_compute in Hc | congruence].
Qed.

Lemma sanitize_filename_id (filename : string) :
  (∀ c, invalid_char c = true → occurs c filename = false) →
  sanitize_filename filename = filename.
Proof.
  induction filename as [|a s IH]; intros Hclean; [done |]. simpl.
  destruct (invalid_char a) eqn:Ha.
  - specialize (Hclean a Ha). rewrite occurs_cons, Ascii.eqb_refl in Hclean. done.
  - f_equal. apply IH. intros c Hc. specialize (Hclean c Hc).
    rewrite occurs_cons in Hclean. by apply orb_false_elim in Hclean as [_ ?].
Qed.

(** X1. The result of [sanitize_filename] has the length of its argument and
    holds none of the nine characters of the class. *)
Theorem X1_sanitize_filename_result_is_clean (filename : string) :
  String.length (sanitize_filename filename) = String.length filename
  ∧ ∀ c, invalid_char c = true → occurs c (sanitize_filename filename) = false.
Proof.
  split; [apply sanitize_filename_length |].
  intros c. apply sanitize_filename_clean.
Qed.

(** X2. [sanitize_filename] leaves a name as it is exactly when the name
    holds none of the nine characters; applied a second time it changes
    nothing. *)
Theorem X2_sanitize_filename_fixed_points (filename : string) :
  (sanitize_filename filename = filename
   ↔ ∀ c, invalid_char c = true → occurs c filename = false)
  ∧ sanitize_filename (sanitize_filename filename) = sanitize_filename filename.
Proof.
  split; [split; [| apply sanitize_filename_id] |].
  - intros Heq c Hc. rewrite <- Heq. by apply sanitize_filename_clean.
  - apply sanitize_filename_id. intros c. apply sanitize_filename_clean.
Qed.

(** X3. Names collide: two names that differ in that one has a character of
    the class where the other has an underscore are different names with the
    same result. *)
Theorem X3_sanitize_filename_collides (a b : string) (c : ascii) :
  invalid_char c = true →
  a +:+ String c b ≠ a +:+ String "_" b
  ∧ sanitize_filename (a +:+ String c b) = sanitize_filename (a +:+ String "_" b).
Proof.
  intros Hc. split.
  - intros Heq. apply (inj (String.app a)) in Heq. injection Heq as ->.
    by vm_compute in Hc.
  - rewrite !sanitize_filename_app. simpl. by rewrite Hc.
Qed.

Lemma X3_witness :
  "out/img" +:+ String "/" "a.png" ≠ "out/img" +:+ String "_" "a.png"
  ∧ sanitize_filename ("out/img" +:+ String "/" "a.png")
    = sanitize_filename ("out/img" +:+ String "_" "a.png").
Proof. apply (X3_sanitize_filename_collides "out/img" "a.png" "/"). reflexivity. Defined.

(** ** [save_file] and [get_page] *)

Lemma save_file_frame (W : World) (url save_path : string) (max_size : Z)
    (fs : gmap string string) (p : string) :
  p ≠ sanitize_filename save_path →
  files_after (save_file W url save_path max_size fs) fs !! p = fs !! p.
Proof.
  intros Hp. unfold save_file.
  destruct (requests_get W url) as [|response|response]; [done | |].
  - destruct (raise_for_status response); [done |].
    destruct (default 0 (content_length response) >? max_size * 1024 * 1024); [done |].
    destruct (broken response); simpl; by rewrite lookup_insert_ne.
  - by destruct (raise_for_status response).
Qed.


(** X5. The size limit is read off the [content-length] header alone: a
    response that does not carry one counts as empty, so with a limit that is
    not negative its body is written in full, whatever its size. *)
Theorem X5_save_file_without_declared_length (W : World) (url save_path : string)
    (max_size : Z) (fs : gmap string string) (response : Response) :
  requests_get W url = Reply response →
  raise_for_status response = false →
  broken response = false →
  content_length response = None →
  0 <= max_size →
  save_file W url save_path max_size fs
  = Return (true,
            <[sanitize_filename save_path := String.concat "" (chunks response)]> fs,
            InfoFileSaved (sanitize_filename save_path)).
Proof.
  intros Hget Hstatus Hbroken Hlen Hmax. unfold save_file.
  rewrite Hget, Hstatus, Hlen, Hbroken. unfold default.
  destruct (0 >? max_size * 1024 * 1024) eqn:Hcmp; [lia | done].
Qed.

Lemma X5_witness :
  save_file Example.world "http://example.com/docs/manual.pdf" "out/docs_manual.pdf" 0 ∅
  = Return (true,
            <[sanitize_filename "out/docs_manual.pdf" := String.concat "" ["%PDF"]]> ∅,
            InfoFileSaved (sanitize_filename "out/docs_manual.pdf")).
Proof.
  apply (X5_save_file_without_declared_length Example.world
           "http://example.com/docs/manual.pdf" "out/docs_manual.pdf" 0 ∅
           (mkResponse 200 None ["%PDF"] false)); first [reflexivity | lia].
Defined.

(** X6. The last writer wins: when two destinations have the same sanitized
    name and the second download gets as far as opening its file, the files
    afterwards are what the second download alone would have left. *)
Theorem X6_save_file_last_writer_wins (W : World) (url1 url2 path1 path2 : string)
    (max_size : Z) (fs : gmap string string) (response : Response) :
  sanitize_filename path1 = sanitize_filename path2 →
  requests_get W url2 = Reply response →
  raise_for_status response = false →
  default 0 (content_length response) <= max_size * 1024 * 1024 →
  save_file W url2 path2 max_size
    (files_after (save_file W url1 path1 max_size fs) fs)
  = save_file W url2 path2 max_size fs.
Proof.
  intros Hsame Hget Hstatus Hsize.
  assert (∀ fs0, save_file W url2 path2 max_size fs0
                 = Return
                     (negb (broken response),
                      <[sanitize_filename path2 := String.concat "" (chunks response)]> fs0,
                      if broken response then ErrorSaveFile url2
                      else InfoFileSaved (sanitize_filename path2))) as Hsecond.
  { intros fs0. unfold save_file. rewrite Hget, Hstatus.
    destruct (default 0 (content_length response) >? max_size * 1024 * 1024) eqn:Hcmp;
      [lia |].
    by destruct (broken response). }
  rewrite !Hsecond. f_equal. f_equal. f_equal.
  pose proof (save_file_frame W url1 path1 max_size fs) as Hframe.
  set (fs1 := files_after (save_file W url1 path1 max_size fs) fs) in *.
  apply map_eq. intros p.
  destruct (decide (p = sanitize_filename path2)) as [-> | Hne].
  - by rewrite !lookup_insert_eq.
  - rewrite !lookup_insert_ne by done. apply Hframe. congruence.
Qed.

(** ** The traversal *)

Lemma for_find_all_ext (body1 body2 : Tag → state → result (Tag * state))
    (tag : string) (soup : list Tag) (st : state) :
  (∀ r s, body1 r s = body2 r s) →
  for_find_all body1 tag soup st = for_find_all body2 tag soup st.
Proof.
  intros Hbody. revert st. induction soup as [|resource rest IH]; intros st; [done |].
  simpl. destruct (String.eqb (tag_name resource) tag).
  - rewrite Hbody. destruct (body2 resource st) as [[r1 s1] | |]; simpl; [| done..].
    by rewrite IH.
  - by rewrite IH.
Qed.

Lemma for_tags_ext (body1 body2 : string → string → Tag → state → result (Tag * state))
    (items : list (string * string)) (soup : list Tag) (st : state) :
  (∀ tag attr r s, body1 tag attr r s = body2 tag attr r s) →
  for_tags body1 items soup st = for_tags body2 items soup st.
Proof.
  intros Hbody. revert soup st.
  induction items as [|[tag attr] items IH]; intros soup st; [done |]. simpl.
  rewrite (for_find_all_ext (body1 tag attr) (body2 tag attr)) by (intros; apply Hbody).
  destruct (for_find_all (body2 tag attr) tag soup st) as [[soup1 s1] | |]; simpl;
    [apply IH | done..].
Qed.

Lemma resource_step_ext (W : World) (A : Args)
    (recurse1 recurse2 : string → Z → state → result state)
    (url save_path : string) (current_depth : Z) (tag attr : string)
    (resource : Tag) (st : state) :
  (∀ u s, recurse1 u (current_depth + 1) s = recurse2 u (current_depth + 1) s) →
  resource_step W A recurse1 url save_path current_depth tag attr resource st
  = resource_step W A recurse2 url save_path current_depth tag attr resource st.
Proof.
  intros Hrec. unfold resource_step.
  repeat match goal with
         | |- context [if ?b then _ else _] => destruct b
         | |- context [match ?o with Some _ => _ | None => _ end] => destruct o
         | |- context [match ?v with Str _ => _ | StrList _ => _ end] => destruct v
         end;
    try reflexivity.
  all: by rewrite Hrec.
Qed.

Section Depth.

Variable W : World.
Variable A : Args.

(** Fuel beyond the levels left is never looked at. *)
Lemma parse_and_download_rec_fuel (fuel1 fuel2 : nat) (url : string) (current_depth : Z)
    (st : state) :
  (Z.to_nat (max_depth A + 1 - current_depth) < fuel1)%nat →
  (Z.to_nat (max_depth A + 1 - current_depth) < fuel2)%nat →
  parse_and_download_rec W A fuel1 url current_depth st
  = parse_and_download_rec W A fuel2 url current_depth st.
Proof.
  revert fuel2 url current_depth st.
  induction fuel1 as [|fuel1 IH]; intros [|fuel2] url current_depth st H1 H2; try lia.
  cbn [parse_and_download_rec].
  destruct (current_depth >? max_depth A) eqn:Hd; [done |].
  destruct (bool_decide (url ∈ visited st)); [done |].
  destruct (get_page W url (visited_add url st)) as [[html_content|] st1]; [| done].
  f_equal. apply for_tags_ext. intros tag attr r s.
  apply resource_step_ext. intros u s0. apply IH; lia.
Qed.

End Depth.

(** X7. The recursion ends on every site, whatever its links: a call nests no
    more than [max_depth + 1 - current_depth] further calls, so that any fuel
    above that number gives the outcome of the call, which is a return or an
    exception. *)
Theorem X7_recursion_depth_is_bounded (W : World) (A : Args) (fuel : nat)
    (url : string) (current_depth : Z) (st : state) :
  (Z.to_nat (max_depth A + 1 - current_depth) < fuel)%nat →
  parse_and_download_rec W A fuel url current_depth st
  = parse_and_download W A url current_depth st
  ∧ fuelled (parse_and_download W A url current_depth st).
Proof.
  intros Hfuel. split.
  - apply parse_and_download_rec_fuel; [done | lia].
  - apply parse_and_download_total.
Qed.

Lemma X7_witness :
  parse_and_download_rec Example.world (Example.args true) 7 "http://example.com/" 0
    initial_state
  = parse_and_download Example.world (Example.args true) "http://example.com/" 0
      initial_state
  ∧ fuelled (parse_and_download Example.world (Example.args true)
               "http://example.com/" 0 initial_state).
Proof.
  apply (X7_recursion_depth_is_bounded Example.world (Example.args true) 7).
  vm_compute. lia.
Defined.

(** What holds of every primitive action of the traversal holds of a call. *)
Section Preserved.

Variable W : World.
Variable A : Args.
Variable R : state → state → Prop.
Context `{!PreOrder R}.

Hypothesis R_get_page :
  ∀ url st, url ∉ visited st → R st (get_page W url (visited_add url st)).2.
Hypothesis R_make_dirs : ∀ path st, R st (make_dirs path st).
Hypothesis R_queue_put :
  ∀ url src st,
    is_valid_url W (urljoin W url src) = true →
    resource_ext_of W url src ∈ RESOURCE_TYPES →
    include_types A = [] ∨ resource_ext_of W url src ∈ include_types A →
    R st (queue_put (urljoin W url src) (resource_path_of W A (urljoin W url src)) st).
Hypothesis R_write_file :
  ∀ save_path content st, R st (write_file (sanitize_filename save_path) content st).
Hypothesis R_logging : ∀ r st, R st (logging r st).
Hypothesis R_sleep : ∀ st, R st (emit (Sleep (delay A)) st).

Lemma resource_step_preserves (recurse : string → Z → state → result state)
    (url save_path : string) (current_depth : Z) (tag attr : string)
    (resource resource' : Tag) (st st' : state) :
  (∀ u s s', recurse u (current_depth + 1) s = Return s' → R s s') →
  resource_step W A recurse url save_path current_depth tag attr resource st
  = Return (resource', st') →
  R st st'.
Proof.
  intros Hrec. unfold resource_step.
  destruct (not_src (attrs resource !! attr) || nofollow resource);
    [by intros [= <- <-] |].
  destruct (attrs resource !! attr) as [[src | l] |]; [| done..].
  destruct (bool_decide (include_types A ≠ []) && _) eqn:Hfilter;
    [by intros [= <- <-] |].
  assert (include_types A = [] ∨ resource_ext_of W url src ∈ include_types A)
    as Hpass.
  { apply andb_false_iff in Hfilter as [Hnone | Hin].
    - left. apply bool_decide_eq_false in Hnone.
      by destruct (include_types A); [| destruct Hnone].
    - right. apply negb_false_iff, bool_decide_eq_true in Hin. exact Hin. }
  clear Hfilter.
  destruct (in_list _ RESOURCE_TYPES || String.eqb tag "a"); [| by intros [= <- <-]].
  destruct (is_valid_url W (urljoin W url src) && _) eqn:Hgate;
    [| intros [= <- <-]; apply R_make_dirs].
  apply andb_prop in Hgate as [Hvalid _].
  destruct (in_list _ RESOURCE_TYPES) eqn:Hext.
  - apply bool_decide_eq_true in Hext.
    destruct (posixpath.relpath _ _ _); [| done]. intros [= <- <-].
    etrans; [apply R_make_dirs | by apply R_queue_put].
  - destruct (String.eqb tag "a" && follow_redirects A);
      [| intros [= <- <-]; apply R_make_dirs].
    intros Hrun. apply bind_Return in Hrun as (s1 & Hcall & Hrun).
    injection Hrun as <- <-. etrans; [apply R_make_dirs | by eapply Hrec].
Qed.

Lemma parse_and_download_rec_preserves (fuel : nat) (url : string) (current_depth : Z)
    (st st' : state) :
  parse_and_download_rec W A fuel url current_depth st = Return st' → R st st'.
Proof.
  revert url current_depth st st'.
  induction fuel as [|fuel IH]; intros url current_depth st st';
    cbn [parse_and_download_rec]; [done |].
  destruct (current_depth >? max_depth A); [by intros [= <-] |].
  destruct (bool_decide (url ∈ visited st)) eqn:Hvis; [by intros [= <-] |].
  apply bool_decide_eq_false in Hvis.
  pose proof (R_get_page url st Hvis) as Hget.
  destruct (get_page W url (visited_add url st)) as [[html_content|] st1];
    simpl in Hget; [| by intros [= <-]].
  intros Hrun. apply bind_Return in Hrun as ([soup1 st2] & Hloop & Hrun).
  injection Hrun as <-.
  etrans; [exact Hget |]. etrans; [apply R_make_dirs |].
  etrans; [| apply R_sleep]. etrans; [| apply R_logging].
  etrans; [| apply R_write_file].
  eapply (for_tags_preserves R); [| exact Hloop].
  intros tag attr r s r' s' Hstep.
  eapply resource_step_preserves; [| exact Hstep]. intros u s0 s0'. apply IH.
Qed.

End Preserved.

Global Instance queue_grows_preorder (W : World) (A : Args) : PreOrder (queue_grows W A).
Proof.
  split.
  - intros st. exists []. by rewrite app_nil_r.
  - intros s1 s2 s3 (new1 & H1 & Hok1) (new2 & H2 & Hok2).
    exists (new1 ++ new2). rewrite H2, H1, app_assoc. split; [done |].
    by apply Forall_app.
Qed.

Global Instance files_stay_flat_preorder : PreOrder files_stay_flat.
Proof.
  split.
  - intros st p. by split.
  - intros s1 s2 s3 H12 H23 p.
    destruct (H12 p) as [Hkeep1 Hflat1]. destruct (H23 p) as [Hkeep2 Hflat2].
    split; [auto |]. intros Hne.
    destruct (decide (files s3 !! p = files s2 !! p)) as [Heq | Hdiff]; [| auto].
    apply Hflat1. congruence.
Qed.

Global Instance no_request_preorder : PreOrder no_request.
Proof.
  split.
  - by intros st.
  - intros s1 s2 s3 [Hv1 Hr1] [Hv2 Hr2]. split; congruence.
Qed.

Lemma requested_app (t1 t2 : list event) :
  requested (t1 ++ t2) = requested t1 ++ requested t2.
Proof. apply omap_app. Qed.

(** What [get_page] does to the state. *)
Lemma get_page_state (W : World) (url : string) (st : state) :
  let st' := (get_page W url st).2 in
  visited st' = visited st
  ∧ download_queue st' = download_queue st
  ∧ files st' = files st
  ∧ trace st' = trace st ++ [Get url].
Proof.
  unfold get_page.
  destruct (requests_get W url) as [|response|response];
    [| destruct (raise_for_status response || broken response)..]; done.
Qed.

Section Invariants.

Variable W : World.
Variable A : Args.

(** X8. Whatever a call of the traversal puts on the queue comes after what
    was there, and is the pair of a URL with scheme and host, whose path has
    an extension of [RESOURCE_TYPES], and of the destination computed for it:
    the queue never receives anything else from the traversal, and never the
    stop signal. *)
Theorem X8_traversal_puts_download_tasks_only (url : string) (current_depth : Z)
    (st st' : state) :
  parse_and_download W A url current_depth st = Return st' →
  ∃ new, download_queue st' = download_queue st ++ new
         ∧ Forall (download_task W A) new
         ∧ PyNone ∉ new.
Proof.
  intros Hrun.
  apply (parse_and_download_rec_preserves W A (queue_grows W A)) in Hrun.
  - destruct Hrun as (new & Hq & Hok). exists new. repeat split; [done..|].
    intros Hin. apply (proj1 (Forall_forall _ _) Hok) in Hin as (u & Hu & _). done.
  - intros u s Hnew. exists [].
    destruct (get_page_state W u (visited_add u s)) as (_ & -> & _).
    by rewrite app_nil_r.
  - intros path s. exists []. by rewrite app_nil_r.
  - intros u src s Hvalid Hext _. eexists. split; [reflexivity |].
    constructor; [| constructor]. by eexists.
  - intros save_path content s. exists []. by rewrite app_nil_r.
  - intros r s. exists []. by rewrite app_nil_r.
  - intros s. exists []. by rewrite app_nil_r.
Qed.

(** X9. A call of the traversal removes no file, and the files it creates or
    changes have names without a slash: every page is written directly into
    the working directory, none under [save_dir]. *)
Theorem X9_traversal_writes_flat_names (url : string) (current_depth : Z)
    (st st' : state) (p : string) :
  parse_and_download W A url current_depth st = Return st' →
  (is_Some (files st !! p) → is_Some (files st' !! p))
  ∧ (files st' !! p ≠ files st !! p → occurs "/" p = false).
Proof.
  intros Hrun.
  apply (parse_and_download_rec_preserves W A files_stay_flat) in Hrun; [apply Hrun | ..].
  - intros u s Hnew q.
    destruct (get_page_state W u (visited_add u s)) as (_ & _ & -> & _). by split.
  - intros path s q. by split.
  - intros u src s _ _ _ q. by split.
  - intros save_path content s q. simpl.
    destruct (decide (q = sanitize_filename save_path)) as [-> | Hne].
    + rewrite lookup_insert_eq. split; [by eauto |]. intros _.
      apply sanitize_filename_clean. reflexivity.
    + rewrite lookup_insert_ne by done. by split.
  - intros r s q. by split.
  - intros s q. by split.
Qed.

End Invariants.

Lemma X8_witness :
  ∃ st', Example.run true = Return st'
         ∧ ∃ new, download_queue st' = download_queue initial_state ++ new
                  ∧ Forall (download_task Example.world (Example.args true)) new
                  ∧ PyNone ∉ new.
Proof.
  destruct (Example.run true) as [st' | e |] eqn:Hrun; [| by vm_compute in Hrun..].
  exists st'. split; [reflexivity |].
  exact (X8_traversal_puts_download_tasks_only Example.world (Example.args true)
           "http://example.com/" 0 initial_state st' Hrun).
Defined.

Lemma X9_witness :
  ∃ st', Example.run true = Return st'
         ∧ (is_Some (files initial_state !! "out_index.html")
            → is_Some (files st' !! "out_index.html"))
         ∧ (files st' !! "out_index.html" ≠ files initial_state !! "out_index.html"
            → occurs "/" "out_index.html" = false).
Proof.
  destruct (Example.run true) as [st' | e |] eqn:Hrun; [| by vm_compute in Hrun..].
  exists st'. split; [reflexivity |].
  exact (X9_traversal_writes_flat_names Example.world (Example.args true)
           "http://example.com/" 0 initial_state st' "out_index.html" Hrun).
Defined.

Lemma X6_witness :
  save_file Example.world "http://example.com/docs/manual.pdf" "out:img_a.png" 50
    (files_after
       (save_file Example.world "http://example.com/img/a.png" "out/img_a.png" 50 ∅) ∅)
  = save_file Example.world "http://example.com/docs/manual.pdf" "out:img_a.png" 50 ∅.
Proof.
  apply (X6_save_file_last_writer_wins Example.world
           "http://example.com/img/a.png" "http://example.com/docs/manual.pdf"
           "out/img_a.png" "out:img_a.png" 50 ∅ (mkResponse 200 None ["%PDF"] false));
    first [reflexivity | vm_compute; discriminate].
Defined.

(** ** Following links *)

(** The loop body calls [recurse] only when [follow_redirects] is set; when
    it is not, or when the call returns at once, the body does what it does
    with the flag off. *)
Lemma resource_step_no_recursion (W : World) (A : Args)
    (recurse : string → Z → state → result state)
    (url save_path : string) (current_depth : Z) (tag attr : string)
    (resource : Tag) (st : state) :
  follow_redirects A = false ∨ (∀ u s, recurse u (current_depth + 1) s = Return s) →
  resource_step W A recurse url save_path current_depth tag attr resource st
  = resource_step W (with_follow_redirects A false) (λ _ _ s, Return s)
      url save_path current_depth tag attr resource st.
Proof.
  intros Hno. unfold resource_step, resource_path_of.
  cbn [with_follow_redirects include_types save_dir follow_redirects].
  destruct (not_src (attrs resource !! attr) || nofollow resource); [done |].
  destruct (attrs resource !! attr) as [[src | l] |]; [| done..].
  destruct (bool_decide (include_types A ≠ []) && _); [done |].
  destruct (in_list _ RESOURCE_TYPES || String.eqb tag "a"); [| done].
  destruct (is_valid_url W (urljoin W url src) && _); [| done].
  destruct (in_list _ RESOURCE_TYPES); [done |].
  rewrite andb_false_r.
  destruct (String.eqb tag "a"); [| done]. simpl.
  destruct (follow_redirects A) eqn:Hflag; [| done].
  destruct Hno as [Hoff | Hquick]; [done |]. by rewrite Hquick.
Qed.

Section Following.

Variable W : World.
Variable A : Args.

Lemma parse_and_download_at_max_depth (url : string) (current_depth : Z) (st : state) :
  max_depth A <= current_depth →
  parse_and_download W A url current_depth st
  = parse_and_download W (with_follow_redirects A false) url current_depth st.
Proof.
  intros Hdeep. unfold parse_and_download.
  remember (with_follow_redirects A false) as A' eqn:HA'.
  assert (max_depth A' = max_depth A) as Hmax by (by subst).
  assert (delay A' = delay A) as Hdelay by (by subst).
  assert (page_save_path W A' url = page_save_path W A url) as Hpath by (by subst).
  cbn [parse_and_download_rec]. rewrite Hmax.
  destruct (current_depth >? max_depth A) eqn:Hd; [done |].
  destruct (bool_decide (url ∈ visited st)); [done |].
  destruct (get_page W url (visited_add url st)) as [[html_content|] st1]; [| done].
  rewrite Hpath, Hdelay.
  destruct (Z.to_nat (max_depth A + 1 - current_depth)) as [|fuel] eqn:Hfuel; [lia |].
  assert (∀ B tag attr r s,
            max_depth B = max_depth A →
            resource_step W B (parse_and_download_rec W B (S fuel)) url
              (page_save_path W A url) current_depth tag attr r s
            = resource_step W (with_follow_redirects B false) (λ _ _ s, Return s) url
                (page_save_path W A url) current_depth tag attr r s) as Hbody.
  { intros B tag attr r s Hsame. apply resource_step_no_recursion. right.
    intros u s0. cbn [parse_and_download_rec]. rewrite Hsame.
    destruct (current_depth + 1 >? max_depth A) eqn:Hd'; [done | lia]. }
  rewrite (for_tags_ext _ _ _ _ _ (λ tag attr r s, Hbody A tag attr r s eq_refl)).
  rewrite (for_tags_ext _ _ _ _ _ (λ tag attr r s, Hbody A' tag attr r s Hmax)).
  by subst A'.
Qed.

Lemma parse_and_download_single (url : string) (current_depth : Z) (st st' : state) :
  follow_redirects A = false →
  current_depth <= max_depth A →
  url ∉ visited st →
  parse_and_download W A url current_depth st = Return st' →
  visited st' = {[url]} ∪ visited st
  ∧ requested (trace st') = requested (trace st) ++ [url].
Proof.
  intros Hoff Hdepth Hnew. unfold parse_and_download. cbn [parse_and_download_rec].
  destruct (current_depth >? max_depth A) eqn:Hd; [lia |].
  rewrite bool_decide_eq_false_2 by done.
  destruct (get_page_state W url (visited_add url st)) as (Hvis & _ & _ & Htrace).
  assert (requested (trace (get_page W url (visited_add url st)).2)
          = requested (trace st) ++ [url]) as Hreq.
  { rewrite Htrace. simpl. by rewrite !requested_app, app_nil_r. }
  destruct (get_page W url (visited_add url st)) as [[html_content|] st1];
    simpl in Hvis, Hreq; [| by intros [= <-]].
  intros Hrun. apply bind_Return in Hrun as ([soup1 st2] & Hloop & Hrun).
  injection Hrun as <-.
  rewrite (for_tags_ext _
             (resource_step W (with_follow_redirects A false) (λ _ _ s, Return s) url
                (page_save_path W A url) current_depth)) in Hloop
    by (intros; apply resource_step_no_recursion; by left).
  apply (for_tags_preserves no_request) in Hloop as [Hvis2 Hreq2].
  - simpl in *. rewrite !requested_app in *. simpl in *. rewrite !app_nil_r in *.
    split; congruence.
  - intros tag attr r s r' s' Hstep.
    eapply (resource_step_preserves W (with_follow_redirects A false) no_request);
      [.. | exact Hstep].
    + intros path s0. split; [done |]. simpl. by rewrite requested_app, app_nil_r.
    + intros u src s0 _ _ _. split; [done |]. simpl. by rewrite requested_app, app_nil_r.
    + by intros u s0 s0' [= <-].
Qed.

End Following.

(** X10. On a page at depth [max_depth] the option [--follow-redirects] makes
    no difference: the links of the page are looked at and their directories
    made, but none is fetched, so the call leaves the state it leaves with
    the option off. *)
Theorem X10_links_of_the_deepest_pages_are_not_followed (W : World) (A : Args)
    (url : string) (current_depth : Z) (st : state) :
  max_depth A <= current_depth →
  parse_and_download W A url current_depth st
  = parse_and_download W (with_follow_redirects A false) url current_depth st.
Proof. apply parse_and_download_at_max_depth. Qed.

Lemma X10_witness :
  parse_and_download Example.world (Example.args true) "http://example.com/sub/" 1
    initial_state
  = parse_and_download Example.world (with_follow_redirects (Example.args true) false)
      "http://example.com/sub/" 1 initial_state.
Proof.
  apply (X10_links_of_the_deepest_pages_are_not_followed Example.world
           (Example.args true) "http://example.com/sub/" 1 initial_state).
  vm_compute. discriminate.
Defined.

(** X11. Without [--follow-redirects], and on a page at depth [max_depth]
    with it, a call for a URL not yet visited requests that URL and no other,
    and adds that URL and no other to [visited]: a run without the option
    fetches the start page only. *)
Theorem X11_one_request_without_following (W : World) (A : Args) (url : string)
    (current_depth : Z) (st st' : state) :
  follow_redirects A = false ∨ current_depth = max_depth A →
  current_depth <= max_depth A →
  url ∉ visited st →
  parse_and_download W A url current_depth st = Return st' →
  visited st' = {[url]} ∪ visited st
  ∧ requested (trace st') = requested (trace st) ++ [url].
Proof.
  intros Hcase Hdepth Hnew Hrun.
  destruct (follow_redirects A) eqn:Hflag.
  - destruct Hcase as [? | ->]; [done |].
    rewrite parse_and_download_at_max_depth in Hrun by lia.
    by apply (parse_and_download_single W (with_follow_redirects A false)) in Hrun.
  - by apply (parse_and_download_single W A) in Hrun.
Qed.

Lemma X11_witness :
  ∃ st', Example.run false = Return st'
         ∧ visited st' = {[ "http://example.com/" ]} ∪ visited initial_state
         ∧ requested (trace st') = requested (trace initial_state) ++ ["http://example.com/"].
Proof.
  destruct (Example.run false) as [st' | e |] eqn:Hrun; [| by vm_compute in Hrun..].
  exists st'. split; [reflexivity |].
  apply (X11_one_request_without_following Example.world (Example.args false)
           "http://example.com/" 0 initial_state st');
    [by left | vm_compute; discriminate | apply not_elem_of_empty | exact Hrun].
Defined.

(** ** Extensions and directories *)

Lemma occurs_nil (c : ascii) : occurs c "" = false.
Proof. reflexivity. Qed.

Lemma rfind_from_absent (c : ascii) (s : string) (i last : Z) :
  occurs c s = false → pystr.rfind_from c s i last = last.
Proof.
  revert i last. induction s as [|a s IH]; intros i last Hs; simpl; [done |].
  rewrite occurs_cons in Hs. apply orb_false_elim in Hs as [-> Hs]. by apply IH.
Qed.

(** [rfind] gives the place of the last occurrence. *)
Lemma rfind_from_last (c : ascii) (pre post : string) (i last : Z) :
  occurs c post = false →
  pystr.rfind_from c (pre +:+ String c post) i last = i + Z.of_nat (String.length pre).
Proof.
  intros Hpost. revert i last.
  induction pre as [|a pre IH]; intros i last; simpl_app; simpl.
  - rewrite Ascii.eqb_refl, rfind_from_absent by done. lia.
  - rewrite IH. lia.
Qed.

Lemma rfind_from_spec (c : ascii) (s : string) (i last : Z) :
  (pystr.rfind_from c s i last = last ∧ occurs c s = false)
  ∨ ∃ pre post, s = pre +:+ String c post ∧ occurs c post = false
                ∧ pystr.rfind_from c s i last = i + Z.of_nat (String.length pre).
Proof.
  revert i last. induction s as [|a s IH]; intros i last; [by left |].
  destruct (IH (i + 1) (if Ascii.eqb a c then i else last))
    as [[Hr Hs] | (pre & post & -> & Hpost & Hr)].
  - destruct (Ascii.eqb a c) eqn:Ha.
    + apply Ascii.eqb_eq in Ha as ->. right. exists "", s.
      repeat split; [done |]. simpl. rewrite Ascii.eqb_refl, Hr. lia.
    + left. simpl. rewrite Ha, occurs_cons, Ha, Hs. done.
  - right. exists (String a pre), post. repeat split; [done |].
    simpl. rewrite Hr. lia.
Qed.

Lemma substring_all (s : string) : String.substring 0 (String.length s) s = s.
Proof. induction s as [|a s IH]; simpl; [done | by rewrite IH]. Qed.

Lemma string_app_length (a b : string) :
  String.length (a +:+ b) = (String.length a + String.length b)%nat.
Proof. induction a as [|x a IH]; simpl_app; simpl; [done | by rewrite IH]. Qed.

Lemma slice_from_app (pre s : string) :
  pystr.slice_from (pre +:+ s) (Z.of_nat (String.length pre)) = s.
Proof.
  unfold pystr.slice_from. rewrite Nat2Z.id, string_app_length.
  replace (String.length pre + String.length s - String.length pre)%nat
    with (String.length s) by lia.
  induction pre as [|a pre IH]; simpl_app; simpl; [apply substring_all | exact IH].
Qed.

Lemma slice_to_app (pre s : string) :
  pystr.slice_to (pre +:+ s) (Z.of_nat (String.length pre)) = pre.
Proof.
  unfold pystr.slice_to. rewrite Nat2Z.id.
  induction pre as [|a pre IH]; simpl_app; simpl; [by destruct s | by rewrite IH].
Qed.

Lemma splitext_scan_ext (p : string) (dotIndex filenameIndex : Z) (fuel : nat) :
  (posixpath.splitext_scan p dotIndex filenameIndex fuel).2 = ""
  ∨ (posixpath.splitext_scan p dotIndex filenameIndex fuel).2
    = pystr.slice_from p dotIndex.
Proof.
  revert filenameIndex. induction fuel as [|fuel IH]; intros filenameIndex; simpl;
    [by left |].
  destruct (filenameIndex <? dotIndex); [| by left].
  destruct (negb _); [by right | apply IH].
Qed.

(** The extension [splitext] gives is empty, or a dot followed by
    characters that are no dots. *)
Lemma splitext_ext (p : string) :
  (posixpath.splitext p).2 = ""
  ∨ ∃ post, (posixpath.splitext p).2 = String "." post ∧ occurs "." post = false.
Proof.
  unfold posixpath.splitext. cbv zeta.
  pose proof (rfind_from_ge posixpath.sep p 0 (-1) ltac:(lia)) as Hge.
  fold (pystr.rfind posixpath.sep p) in Hge.
  destruct (pystr.rfind "." p >? pystr.rfind posixpath.sep p) eqn:Hcmp; [| by left].
  destruct (splitext_scan_ext p (pystr.rfind "." p) (pystr.rfind posixpath.sep p + 1)
              (String.length p)) as [-> | ->]; [by left |].
  unfold pystr.rfind in *.
  destruct (rfind_from_spec "." p 0 (-1)) as [[Hr _] | (pre & post & -> & Hpost & Hr)];
    [lia |].
  right. exists post. split; [| done].
  rewrite Hr, Z.add_0_l. apply slice_from_app.
Qed.

Lemma lower_ascii_dot (a : ascii) :
  Ascii.eqb (pystr.lower_ascii a) "." = Ascii.eqb a ".".
Proof. destruct a as [[] [] [] [] [] [] [] []]; reflexivity. Qed.

Lemma occurs_dot_lower (s : string) : occurs "." (pystr.lower s) = occurs "." s.
Proof.
  induction s as [|a s IH]; [done |].
  cbn [pystr.lower]. by rewrite !occurs_cons, lower_ascii_dot, IH.
Qed.

Lemma startswith_occurs (c : ascii) (s : string) :
  pystr.startswith s (String c "") = true → occurs c s = true.
Proof. intros H. destruct s as [|a s]; [done |]. unfold occurs. simpl in *. by rewrite H. Qed.

(** The lower-cased extension of a path is empty, or a dot followed by
    characters that are no dots. *)
Lemma lower_ext (p : string) :
  pystr.lower (posixpath.splitext p).2 = ""
  ∨ ∃ post, pystr.lower (posixpath.splitext p).2 = String "." post
            ∧ occurs "." post = false.
Proof.
  destruct (splitext_ext p) as [-> | (post & -> & Hpost)]; [by left |].
  right. exists (pystr.lower post). split; [done |]. by rewrite occurs_dot_lower.
Qed.

(** What [main] puts in [include_types] begins with a dot. *)
Lemma include_types_of_dotted (arg : option string) (e : string) :
  e ∈ include_types_of arg →
  ∃ piece s, arg = Some s ∧ piece ∈ pystr.split "," s
             ∧ e = String "." (pystr.strip piece).
Proof.
  destruct arg as [s |]; simpl; [| by intros ?%elem_of_nil].
  destruct (pystr.truthy s); [| by intros ?%elem_of_nil].
  intros (piece & <- & Hpiece%list_elem_of_In)%list_elem_of_In%in_map_iff.
  by exists piece, s.
Qed.

Lemma include_types_of_nonempty (s : string) :
  s ≠ "" → include_types_of (Some s) ≠ [].
Proof.
  intros Hs. simpl. destruct s as [|a s]; [done |]. cbn [pystr.truthy].
  pose proof (split_nonempty "," (String a s)) as Hne.
  by destruct (pystr.split "," (String a s)).
Qed.

(** Written as the help of the option shows them, with their dots, the
    types match no extension. *)
Lemma dotted_types_match_nothing (s p : string) :
  Forall (λ piece, pystr.startswith (pystr.strip piece) "." = true) (pystr.split "," s) →
  pystr.lower (posixpath.splitext p).2 ∉ include_types_of (Some s).
Proof.
  intros Hdots (piece & s' & [= <-] & Hpiece & Hext)%include_types_of_dotted.
  apply (proj1 (Forall_forall _ _) Hdots) in Hpiece.
  destruct (lower_ext p) as [Hnone | (post & Hsome & Hpost)]; [congruence |].
  rewrite Hsome in Hext. injection Hext as ->.
  apply startswith_occurs in Hpiece. congruence.
Qed.

Global Instance queue_kept_preorder : PreOrder queue_kept.
Proof.
  split; [by intros st |]. unfold queue_kept. intros s1 s2 s3 H1 H2. congruence.
Qed.

(** X12. The option [--include-types] written as its help shows it, each type
    with its dot ([.jpg,.png]), filters everything out: [main] puts one more
    dot before each type and no extension begins with two, so a traversal
    with such a list puts nothing on the queue. *)
Theorem X12_dotted_include_types_download_nothing (W : World) (A : Args) (s url : string)
    (current_depth : Z) (st st' : state) :
  s ≠ "" →
  Forall (λ piece, pystr.startswith (pystr.strip piece) "." = true) (pystr.split "," s) →
  include_types A = include_types_of (Some s) →
  parse_and_download W A url current_depth st = Return st' →
  download_queue st' = download_queue st.
Proof.
  intros Hs Hdots Hfilter Hrun.
  apply (parse_and_download_rec_preserves W A queue_kept) in Hrun; [exact Hrun | ..].
  - intros u s0 _. unfold queue_kept.
    by destruct (get_page_state W u (visited_add u s0)) as (_ & -> & _).
  - done.
  - intros u src s0 _ _ [Hnone | Hin].
    + rewrite Hfilter in Hnone. by apply include_types_of_nonempty in Hnone.
    + rewrite Hfilter in Hin. by apply dotted_types_match_nothing in Hin.
  - done.
  - done.
  - done.
Qed.

Lemma X12_witness :
  let A := mkArgs "out" 1 1 50 (include_types_of (Some ".png,.pdf")) true in
  ∃ st', parse_and_download Example.world A "http://example.com/" 0 initial_state
         = Return st'
         ∧ download_queue st' = download_queue initial_state.
Proof.
  intros A.
  destruct (parse_and_download Example.world A "http://example.com/" 0 initial_state)
    as [st' | e |] eqn:Hrun; [| by vm_compute in Hrun..].
  exists st'. split; [reflexivity |].
  apply (X12_dotted_include_types_download_nothing Example.world A ".png,.pdf"
           "http://example.com/" 0 initial_state st');
    [discriminate | by repeat constructor | reflexivity | exact Hrun].
Defined.

(** X13. Under any list [main] builds for [--include-types], a reference
    whose path has no extension is passed over: nothing is put, made or
    fetched for it, so with the option set the traversal follows no link to
    a page such as [/sub/]. *)
Theorem X13_filter_stops_links_without_extension (W : World) (A : Args)
    (recurse : string → Z → state → result state) (s url save_path : string)
    (current_depth : Z) (tag attr src : string) (resource : Tag) (st : state) :
  s ≠ "" →
  include_types A = include_types_of (Some s) →
  attrs resource !! attr = Some (Str src) →
  resource_ext_of W url src = "" →
  resource_step W A recurse url save_path current_depth tag attr resource st
  = Return (resource, st).
Proof.
  intros Hs Hfilter Hsrc Hext. unfold resource_step. rewrite Hsrc.
  destruct (not_src (Some (Str src)) || nofollow resource); [done |].
  fold (resource_ext_of W url src). rewrite Hext.
  rewrite bool_decide_eq_true_2
    by (rewrite Hfilter; by apply include_types_of_nonempty).
  unfold in_list. rewrite bool_decide_eq_false_2; [done |].
  rewrite Hfilter. by intros (piece & s' & _ & _ & ?)%include_types_of_dotted.
Qed.

Lemma X13_witness :
  let A := mkArgs "out" 1 1 50 (include_types_of (Some "html")) true in
  let a := Example.tag "a" [("href", Str "/sub/")] in
  resource_step Example.world A (parse_and_download Example.world A)
    "http://example.com/" "out/index.html" 0 "a" "href" a initial_state
  = Return (a, initial_state).
Proof.
  intros A a.
  apply (X13_filter_stops_links_without_extension Example.world A
           (parse_and_download Example.world A) "html" "http://example.com/"
           "out/index.html" 0 "a" "href" "/sub/" a initial_state);
    [discriminate | reflexivity | reflexivity | vm_compute; reflexivity].
Defined.

Lemma all_sep_app_sep (a : string) :
  a ≠ "" → pystr.endswith a "/" = false → posixpath.all_sep (a +:+ "/") = false.
Proof.
  induction a as [|x a IH]; [done |]. intros _ Hend. simpl_app. cbn [posixpath.all_sep].
  destruct a as [|y a].
  - simpl in Hend. unfold posixpath.sep. by rewrite Hend.
  - rewrite IH; [apply andb_false_r | done | exact Hend].
Qed.

Lemma rstrip_app_sep (a : string) :
  a ≠ "" → pystr.endswith a "/" = false → pystr.rstrip "/" (a +:+ "/") = a.
Proof.
  induction a as [|x a IH]; [done |]. intros _ Hend. simpl_app. cbn [pystr.rstrip].
  destruct a as [|y a].
  - simpl in *. by rewrite Hend.
  - rewrite IH; [done | done | exact Hend].
Qed.

Lemma dirname_join_flat (a b : string) :
  a ≠ "" → pystr.endswith a "/" = false → occurs "/" b = false →
  posixpath.dirname (posixpath.join a b) = a.
Proof.
  intros Ha Hend Hb. unfold posixpath.join.
  assert (pystr.startswith b "/" = false) as ->.
  { destruct b as [|y b]; [done |]. rewrite occurs_cons in Hb.
    apply orb_false_elim in Hb as [Hy _]. simpl. by rewrite Hy. }
  destruct a as [|x a]; [done |]. cbn [pystr.truthy negb orb].
  unfold posixpath.sep. rewrite Hend.
  unfold posixpath.dirname, pystr.rfind. cbv zeta.
  change (String x a +:+ "/" +:+ b) with (String x a +:+ String "/" b).
  unfold posixpath.sep. rewrite rfind_from_last by done.
  replace (0 + Z.of_nat (String.length (String x a)) + 1)
    with (Z.of_nat (String.length (String x a +:+ "/")))
    by (rewrite string_app_length; simpl; lia).
  change (String x a +:+ String "/" b) with (String x a +:+ ("/" +:+ b)).
  rewrite <- string_app_assoc, slice_to_app.
  rewrite all_sep_app_sep by done.
  change (pystr.truthy (String x a +:+ "/")) with true. cbn [negb andb].
  by apply rstrip_app_sep.
Qed.

(** X14. Every resource has the same directory: with [save_dir] not empty and
    not ended by a slash, as its default is, the directory made at line 142
    for a resource is [save_dir] itself, whatever the path of its URL. *)
Theorem X14_resources_share_one_directory (W : World) (A : Args) (resource_url : string) :
  save_dir A ≠ "" →
  pystr.endswith (save_dir A) "/" = false →
  posixpath.dirname (resource_path_of W A resource_url) = save_dir A.
Proof.
  intros Hdir Hend. unfold resource_path_of.
  apply dirname_join_flat; [done | done |].
  by apply sanitize_filename_clean.
Qed.

Lemma X14_witness :
  posixpath.dirname
    (resource_path_of Example.world (Example.args true) "http://example.com/img/a.png")
  = save_dir (Example.args true).
Proof.
  apply (X14_resources_share_one_directory Example.world (Example.args true)
           "http://example.com/img/a.png"); [discriminate | reflexivity].
Defined.

(** ** The page that is saved *)

Section Shape.

Variable P : Tag → Tag → Prop.
Context `{!PreOrder P}.

Lemma for_find_all_shape (body : Tag → state → result (Tag * state))
    (tag : string) (soup soup' : list Tag) (st st' : state) :
  (∀ r s r' s', tag_name r = tag → body r s = Return (r', s') → P r r') →
  for_find_all body tag soup st = Return (soup', st') → Forall2 P soup soup'.
Proof.
  intros Hbody. revert soup' st st'.
  induction soup as [|resource rest IH]; intros soup' st st' Hrun; simpl in Hrun.
  - injection Hrun as <- <-. constructor.
  - destruct (String.eqb (tag_name resource) tag) eqn:Hname.
    + apply String.eqb_eq in Hname.
      apply bind_Return in Hrun as ([r1 s1] & Hb & Hrun).
      apply bind_Return in Hrun as ([rest1 s2] & Hrest & Hrun).
      injection Hrun as <- <-. constructor; [by eapply Hbody | by eapply IH].
    + apply bind_Return in Hrun as ([rest1 s1] & Hrest & Hrun).
      injection Hrun as <- <-. constructor; [done | by eapply IH].
Qed.

Lemma for_tags_shape (body : string → string → Tag → state → result (Tag * state))
    (items : list (string * string)) (soup soup' : list Tag) (st st' : state) :
  (∀ tag attr r s r' s', (tag, attr) ∈ items → tag_name r = tag →
                         body tag attr r s = Return (r', s') → P r r') →
  for_tags body items soup st = Return (soup', st') → Forall2 P soup soup'.
Proof.
  revert soup st.
  induction items as [|[tag attr] items IH]; intros soup st Hbody Hrun; simpl in Hrun.
  - injection Hrun as <- <-. reflexivity.
  - apply bind_Return in Hrun as ([soup1 s1] & Hfind & Hrun).
    trans soup1.
    + eapply for_find_all_shape; [| exact Hfind].
      intros r s r' s' Hname. apply Hbody; [left | done].
    + eapply IH; [| exact Hrun]. intros tag' attr' r s r' s' Hin.
      apply Hbody. by right.
Qed.

End Shape.

Global Instance rewritten_preorder : PreOrder rewritten.
Proof.
  split.
  - intros t. by repeat split.
  - intros t1 t2 t3 (Hn1 & Ha1 & Hk1 & Hu1) (Hn2 & Ha2 & Hk2 & Hu2).
    repeat split.
    + congruence.
    + intros k Hsrc Hhref. rewrite Ha2, Ha1 by done. done.
    + intros H. by apply Hk1, Hk2.
    + intros H. by apply Hk2, Hk1.
    + intros Hout. rewrite Hu2, Hu1 by congruence. done.
Qed.

(** The loop body gives the tag back, with at most the attribute it read
    assigned a new string. *)
Lemma resource_step_tag (W : World) (A : Args)
    (recurse : string → Z → state → result state) (url save_path : string)
    (current_depth : Z) (tag attr : string) (resource resource' : Tag) (st st' : state) :
  resource_step W A recurse url save_path current_depth tag attr resource st
  = Return (resource', st') →
  resource' = resource
  ∨ is_Some (attrs resource !! attr)
    ∧ ∃ v, resource' = mkTag (tag_name resource) (<[attr := Str v]> (attrs resource)).
Proof.
  unfold resource_step.
  destruct (not_src (attrs resource !! attr) || nofollow resource);
    [intros [= <- <-]; by left |].
  destruct (attrs resource !! attr) as [[src | l] |] eqn:Hsrc; [| done..].
  destruct (bool_decide (include_types A ≠ []) && _); [intros [= <- <-]; by left |].
  destruct (in_list _ RESOURCE_TYPES || String.eqb tag "a"); [| intros [= <- <-]; by left].
  destruct (is_valid_url W (urljoin W url src) && _); [| intros [= <- <-]; by left].
  destruct (in_list _ RESOURCE_TYPES).
  - destruct (posixpath.relpath _ _ _) as [relative_path |]; [| done].
    intros [= <- <-]. right. split; [done |]. by eexists.
  - destruct (String.eqb tag "a" && follow_redirects A); [| intros [= <- <-]; by left].
    intros Hrun. apply bind_Return in Hrun as (s1 & _ & Hrun).
    injection Hrun as <- <-. by left.
Qed.

Lemma resource_step_rewritten (W : World) (A : Args)
    (recurse : string → Z → state → result state) (url save_path : string)
    (current_depth : Z) (tag attr : string) (resource resource' : Tag) (st st' : state) :
  (tag, attr) ∈ tags → tag_name resource = tag →
  resource_step W A recurse url save_path current_depth tag attr resource st
  = Return (resource', st') →
  rewritten resource resource'.
Proof.
  intros Hin Hname Hstep.
  apply resource_step_tag in Hstep as [-> | [Hsome [v ->]]]; [done |].
  assert (attr = "src" ∨ attr = "href") as Hattr.
  { assert (Forall (λ item, item.2 = "src" ∨ item.2 = "href") tags) as Hall
      by (unfold tags; repeat (apply Forall_cons_2; [simpl; auto |]);
          apply Forall_nil_2).
    by apply (proj1 (Forall_forall _ _) Hall) in Hin. }
  repeat split; simpl.
  - intros k Hsrc Hhref. apply lookup_insert_ne. destruct Hattr; congruence.
  - destruct (decide (k = attr)) as [-> | Hne]; [done |].
    by rewrite lookup_insert_ne.
  - destruct (decide (k = attr)) as [-> | Hne].
    + rewrite lookup_insert_eq. by eauto.
    + by rewrite lookup_insert_ne.
  - intros Hout. destruct Hout. rewrite Hname.
    apply (list_elem_of_fmap_2 fst) in Hin. exact Hin.
Qed.

(** X15. A page that was fetched is saved once its references have been gone
    through: the file at the sanitized [save_path] then holds the printed
    document the parser gave, tag for tag, in which a tag differs from the
    parsed one at most in the value of its [src] or [href]; no tag and no
    attribute is added or removed.  The call ends with the log record of
    line 155 and the sleep of line 157. *)
Theorem X15_saved_page_is_the_parsed_page_rewritten (W : World) (A : Args) (url : string)
    (current_depth : Z) (st st' : state) (response : Response) :
  current_depth <= max_depth A →
  url ∉ visited st →
  requests_get W url = Reply response →
  raise_for_status response = false →
  broken response = false →
  parse_and_download W A url current_depth st = Return st' →
  ∃ soup',
    Forall2 rewritten (BeautifulSoup W (String.concat "" (chunks response))) soup'
    ∧ files st' !! sanitize_filename (page_save_path W A url) = Some (prettify W soup')
    ∧ last (log st') = Some (InfoPageSaved (sanitize_filename (page_save_path W A url)))
    ∧ last (trace st') = Some (Sleep (delay A)).
Proof.
  intros Hdepth Hnew Hget Hstatus Hbroken.
  unfold parse_and_download. cbn [parse_and_download_rec].
  destruct (current_depth >? max_depth A) eqn:Hd; [lia |].
  rewrite bool_decide_eq_false_2 by done.
  unfold get_page. rewrite Hget, Hstatus, Hbroken. cbn [orb].
  intros Hrun. apply bind_Return in Hrun as ([soup1 st2] & Hloop & Hrun).
  injection Hrun as <-. exists soup1. repeat split.
  - eapply (for_tags_shape rewritten); [| exact Hloop].
    intros tag attr r s r' s'. apply resource_step_rewritten.
  - simpl. apply lookup_insert_eq.
  - simpl. apply last_snoc.
  - simpl. apply last_snoc.
Qed.

Lemma X15_witness :
  ∃ st', Example.run true = Return st'
  ∧ ∃ soup',
      Forall2 rewritten (Example.BeautifulSoup (String.concat "" [Example.index_html]))
        soup'
      ∧ files st' !! sanitize_filename
                       (page_save_path Example.world (Example.args true)
                          "http://example.com/")
        = Some (Example.prettify soup')
      ∧ last (log st')
        = Some (InfoPageSaved
                  (sanitize_filename
                     (page_save_path Example.world (Example.args true)
                        "http://example.com/")))
      ∧ last (trace st') = Some (Sleep (delay (Example.args true))).
Proof.
  destruct (Example.run true) as [st' | e |] eqn:Hrun; [| by vm_compute in Hrun..].
  exists st'. split; [reflexivity |].
  apply (X15_saved_page_is_the_parsed_page_rewritten Example.world (Example.args true)
           "http://example.com/" 0 initial_state st'
           (mkResponse 200 None [Example.index_html] false));
    [vm_compute; discriminate | apply not_elem_of_empty | reflexivity | reflexivity
    | reflexivity | exact Hrun].
Defined.

(** ** The pool: the counter of the queue, the files, the hang without threads *)

Lemma tally_lookup (f : Pool.worker → nat) (ws : list Pool.worker) (i : nat)
    (w : Pool.worker) :
  ws !! i = Some w → (f w ≤ Pool.tally f ws)%nat.
Proof.
  unfold Pool.tally. revert i.
  induction ws as [|w' ws IH]; intros [|i] Hw; simpl in *; try done.
  - injection Hw as ->. lia.
  - specialize (IH i Hw). lia.
Qed.

Section Frames.

Variable W : World.
Variable max_size : Z.
Variable threads : nat.
Variable tasks : list (string * string).

(** The main thread writes no file and settles no task; it only adds to the
    list of the threads. *)
Lemma main_frame (c c' : Pool.config) :
  Pool.main threads tasks c = Some c' →
  Pool.disk c' = Pool.disk c
  ∧ Pool.outcomes c' = Pool.outcomes c
  ∧ (length (Pool.workers c) ≤ length (Pool.workers c'))%nat.
Proof.
  unfold Pool.main.
  destruct (Pool.pc c) as [[|k] | [|[url save_path] rest] | | [|k] | i | | e];
    try (intros [= <-]; simpl; rewrite ?length_app; repeat split; lia).
  - destruct (Pool.unfinished_tasks c =? 0); [| done].
    intros [= <-]. simpl. repeat split; lia.
  - destruct (Pool.workers c !! i) as [w|]; [destruct (Pool.terminated w) |];
      try done; intros [= <-]; simpl; repeat split; lia.
Qed.

(** A step of a worker leaves the files and the outcomes alone, unless it
    is a [save_file] that returns, which settles the task the worker holds. *)
Lemma download_worker_frame (i : nat) (c c' : Pool.config) :
  Pool.download_worker W max_size i c = Some c' →
  (0 < length (Pool.workers c))%nat
  ∧ length (Pool.workers c') = length (Pool.workers c)
  ∧ (Pool.disk c' = Pool.disk c ∧ Pool.outcomes c' = Pool.outcomes c
     ∨ ∃ url save_path,
         Pool.workers c !! i = Some (Pool.AtSave url save_path)
         ∧ Pool.disk c' = files_after (save_file W url save_path max_size (Pool.disk c))
                            (Pool.disk c)
         ∧ Pool.settled c' = Pool.settled c ++ [(url, save_path)]).
Proof.
  unfold Pool.download_worker.
  destruct (Pool.workers c !! i) as [w|] eqn:Hw; [| done].
  pose proof (lookup_lt_Some _ _ _ Hw) as Hlt.
  destruct w as [| url save_path | | |]; try done.
  - destruct (Pool.queue c) as [|it q]; [done |]. intros [= <-]. simpl.
    rewrite length_insert. repeat split; [lia | by left].
  - destruct (save_file W url save_path max_size (Pool.disk c)) as [[[ok fs] r] | e |]
      eqn:Hsave; [| | done]; intros [= <-]; simpl; rewrite length_insert;
      (repeat split; [lia |]); [| by left].
    right. exists url, save_path. rewrite Hsave. split; [done |]. split; [done |].
    unfold Pool.settled. cbn [Pool.outcomes]. by rewrite fmap_app.
  - intros [= <-]. simpl. rewrite length_insert. repeat split; [lia | by left].
Qed.

Local Abbreviation reachable := (Pool.reachable W max_size threads tasks).

Lemma outcomes_need_workers (c : Pool.config) :
  reachable c → Pool.workers c = [] → Pool.outcomes c = [].
Proof.
  unfold Pool.reachable. revert c.
  apply (rtc_ind_r (R := Pool.step W max_size threads tasks)
           (λ c, Pool.workers c = [] → Pool.outcomes c = []) (Pool.initial threads)).
  - done.
  - intros c1 c2 _ [Hstep | i Hstep | e puts Hpc ->] IH Hnone; [| | by apply IH].
    + apply main_frame in Hstep as (_ & -> & Hlen). apply IH.
      rewrite Hnone in Hlen. simpl in Hlen. apply length_zero_iff_nil. lia.
    + apply download_worker_frame in Hstep as (Hpos & Hlen & _).
      rewrite Hnone in Hlen. simpl in Hlen. lia.
Qed.

Lemma settled_are_tasks (c : Pool.config) (t : string * string) :
  reachable c → t ∈ Pool.settled c → t ∈ tasks.
Proof.
  intros Hinv%reachable_invariant Ht. unfold Pool.invariant in Hinv.
  assert (∀ rest, Pool.working threads tasks c rest → t ∈ tasks) as Hworking.
  { intros rest (_ & _ & _ & _ & lost & _ & Hperm). rewrite <- Hperm.
    apply elem_of_app. by left. }
  assert (∀ k, Pool.stopping threads tasks c k → t ∈ tasks) as Hstopping.
  { intros k (_ & _ & _ & _ & _ & Hperm). by rewrite <- Hperm. }
  destruct (Pool.pc c); try by eauto.
  - destruct Hinv as (_ & _ & _ & _ & Ho). unfold Pool.settled in Ht.
    rewrite Ho in Ht. by apply elem_of_nil in Ht.
  - destruct Hinv as [Hstop _]. by eauto.
  - destruct Hinv as [Hstop _]. by eauto.
  - destruct Hinv as [rest Hwork]. by eauto.
Qed.

Lemma disk_names (c : Pool.config) (p : string) :
  reachable c → is_Some (Pool.disk c !! p) →
  ∃ url save_path, (url, save_path) ∈ Pool.settled c ∧ p = sanitize_filename save_path.
Proof.
  unfold Pool.reachable. revert c.
  apply (rtc_ind_r (R := Pool.step W max_size threads tasks)
           (λ c, is_Some (Pool.disk c !! p) →
                 ∃ url save_path, (url, save_path) ∈ Pool.settled c
                                  ∧ p = sanitize_filename save_path)
           (Pool.initial threads)).
  - simpl. rewrite lookup_empty. by intros [? ?].
  - intros c1 c2 _ [Hstep | i Hstep | e puts Hpc ->] IH; [| | exact IH].
    + apply main_frame in Hstep as (-> & Ho & _). unfold Pool.settled. by rewrite Ho.
    + apply download_worker_frame in Hstep
        as (_ & _ & [[-> Ho] | (url & save_path & _ & -> & ->)]).
      * unfold Pool.settled. by rewrite Ho.
      * destruct (decide (p = sanitize_filename save_path)) as [-> | Hne].
        -- intros _. exists url, save_path. split; [| done].
           apply elem_of_app. right. by apply list_elem_of_singleton.
        -- rewrite save_file_frame by done. intros (u & sp & Hin & ->)%IH.
           exists u, sp. split; [| done]. apply elem_of_app. by left.
Qed.

End Frames.

(** X16. The counter of the queue never goes below zero, and it is at least
    one whenever a worker is about to call [task_done]: the call is never
    made more often than [put], so it never raises its [ValueError]. *)
Theorem X16_task_done_is_never_called_too_often (W : World) (max_size : Z)
    (threads : nat) (tasks : list (string * string)) (c : Pool.config) :
  Pool.reachable W max_size threads tasks c →
  0 <= Pool.unfinished_tasks c
  ∧ ∀ i, Pool.workers c !! i = Some Pool.AtTaskDone → 1 <= Pool.unfinished_tasks c.
Proof.
  intros Hinv%reachable_invariant. unfold Pool.invariant in Hinv.
  assert (∀ rest, Pool.working threads tasks c rest →
                  0 <= Pool.unfinished_tasks c
                  ∧ ∀ i, Pool.workers c !! i = Some Pool.AtTaskDone →
                         1 <= Pool.unfinished_tasks c) as Hworking.
  { intros rest (_ & _ & _ & Hu & _). split; [lia |]. intros i Hw.
    apply (tally_lookup Pool.busy) in Hw. simpl in Hw. lia. }
  assert (∀ k, Pool.stopping threads tasks c k →
               0 <= Pool.unfinished_tasks c
               ∧ ∀ i, Pool.workers c !! i = Some Pool.AtTaskDone →
                      1 <= Pool.unfinished_tasks c) as Hstopping.
  { intros k (_ & Hws & _ & _ & Hu & _). split; [lia |]. intros i Hw.
    by destruct (proj1 (Forall_lookup _ _) Hws i _ Hw). }
  destruct (Pool.pc c); try by eauto.
  - destruct Hinv as (_ & Hws & _ & Hu & _). split; [lia |]. intros i Hw.
    by pose proof (proj1 (Forall_lookup _ _) Hws i _ Hw).
  - destruct Hinv as [Hstop _]. by eauto.
  - destruct Hinv as [Hstop _]. by eauto.
  - destruct Hinv as [rest Hwork]. by eauto.
Qed.

Lemma X16_witness :
  let tasks := [("http://example.com/img/a.png", "out/img_a.png")] in
  let c := Pool.schedule Example.world 50 1 tasks 6 (Pool.initial 1) in
  Pool.workers c !! 0%nat = Some Pool.AtTaskDone
  ∧ 0 <= Pool.unfinished_tasks c
  ∧ ∀ i, Pool.workers c !! i = Some Pool.AtTaskDone → 1 <= Pool.unfinished_tasks c.
Proof.
  intros tasks c. split; [vm_compute; reflexivity |].
  apply (X16_task_done_is_never_called_too_often Example.world 50 1 tasks c).
  apply schedule_run.
Defined.

(** X17. The workers write flat files only: every file on the disk during a
    run of the pool is named by the sanitized [save_path] of a task that a
    worker has handed to [save_file], so its name has no slash and the file
    lies in the working directory, not under [save_dir]. *)
Theorem X17_workers_write_sanitized_task_paths (W : World) (max_size : Z)
    (threads : nat) (tasks : list (string * string)) (c : Pool.config) (p : string) :
  Pool.reachable W max_size threads tasks c →
  is_Some (Pool.disk c !! p) →
  occurs "/" p = false
  ∧ ∃ url save_path, (url, save_path) ∈ tasks
                     ∧ (url, save_path) ∈ Pool.settled c
                     ∧ p = sanitize_filename save_path.
Proof.
  intros Hreach Hfile.
  destruct (disk_names W max_size threads tasks c p Hreach Hfile)
    as (url & save_path & Hin & ->).
  split; [by apply sanitize_filename_clean |].
  exists url, save_path. repeat split; [| done].
  by eapply settled_are_tasks.
Qed.

Lemma X17_witness :
  let tasks := [("http://example.com/img/a.png", "out/img_a.png")] in
  let c := Pool.schedule Example.world 50 1 tasks 40 (Pool.initial 1) in
  occurs "/" "out_img_a.png" = false
  ∧ ∃ url save_path, (url, save_path) ∈ tasks
                     ∧ (url, save_path) ∈ Pool.settled c
                     ∧ "out_img_a.png" = sanitize_filename save_path.
Proof.
  intros tasks c.
  apply (X17_workers_write_sanitized_task_paths Example.world 50 1 tasks c
           "out_img_a.png").
  - apply schedule_run.
  - vm_compute. by eexists.
Defined.

(** X18. With [--threads 0] and at least one task the program never ends:
    no worker takes a task, the counter of the queue stays above zero, and
    the main thread stays in [download_queue.join()] (line 264), where no
    thread can move any more. *)
Theorem X18_no_thread_never_ends (W : World) (max_size : Z)
    (tasks : list (string * string)) (c : Pool.config) :
  tasks ≠ [] →
  Pool.reachable W max_size 0 tasks c →
  Pool.pc c ≠ Pool.Finished
  ∧ (Pool.pc c = Pool.JoiningQueue → ∀ c', ¬ Pool.step W max_size 0 tasks c c').
Proof.
  intros Htasks Hreach.
  pose proof (reachable_invariant _ _ _ _ _ Hreach) as Hinv.
  pose proof (outcomes_need_workers _ _ _ _ _ Hreach) as Hnone.
  unfold Pool.invariant in Hinv.
  assert (∀ k, Pool.stopping 0 tasks c k → False) as Hstopping.
  { intros k (Hlen & _ & _ & _ & _ & Hperm).
    apply length_zero_iff_nil in Hlen. unfold Pool.settled in Hperm.
    rewrite (Hnone Hlen) in Hperm. simpl in Hperm.
    by apply Permutation_nil_l in Hperm. }
  split.
  - intros Hpc. rewrite Hpc in Hinv. destruct Hinv as [Hstop _]. by eapply Hstopping.
  - intros Hpc c' Hstep. rewrite Hpc in Hinv.
    destruct Hinv as (Hlen & _ & _ & Hu & lost & Hlost & Hperm).
    apply length_zero_iff_nil in Hlen.
    unfold Pool.settled, Pool.in_hand, Pool.waiting in Hperm.
    rewrite Hlen in Hlost. apply length_zero_iff_nil in Hlost as ->.
    rewrite (Hnone Hlen), Hlen in Hperm. simpl in Hperm. rewrite !app_nil_r in Hperm.
    assert (Pool.queue c ≠ []) as Hq.
    { intros Hq. rewrite Hq in Hperm. simpl in Hperm.
      by apply Permutation_nil_l in Hperm. }
    destruct Hstep as [Hstep | i Hstep | e puts Hcrawl _]; [| | congruence].
    + unfold Pool.main in Hstep. rewrite Hpc in Hstep.
      destruct (Pool.unfinished_tasks c =? 0) eqn:Hzero; [| done].
      destruct (Pool.queue c); [done |]. simpl in Hu. lia.
    + unfold Pool.download_worker in Hstep. by rewrite Hlen in Hstep.
Qed.

Lemma X18_witness :
  let tasks := [("http://example.com/img/a.png", "out/img_a.png")] in
  let c := Pool.schedule Example.world 50 0 tasks 40 (Pool.initial 0) in
  Pool.pc c = Pool.JoiningQueue
  ∧ Pool.pc c ≠ Pool.Finished
  ∧ (Pool.pc c = Pool.JoiningQueue →
     ∀ c', ¬ Pool.step Example.world 50 0 tasks c c').
Proof.
  intros tasks c. split; [vm_compute; reflexivity |].
  apply (X18_no_thread_never_ends Example.world 50 tasks c); [discriminate |].
  apply schedule_run.
Defined.



(** A thread that has ended stays where it ended. *)
Lemma died_stays (W : World) (max_size : Z) (threads : nat)
    (tasks : list (string * string)) (c c' : Pool.config) (i : nat) (e : exn) :
  rtc (Pool.step W max_size threads tasks) c c' →
  Pool.workers c !! i = Some (Pool.Died e) →
  Pool.workers c' !! i = Some (Pool.Died e).
Proof.
  induction 1 as [c | c1 c2 c3 Hstep _ IH]; [done |]. intros Hw. apply IH.
  destruct Hstep as [Hstep | j Hstep | e' puts Hpc ->]; [| | done].
  - apply main_workers in Hstep as [[-> | ->] _]; [done |].
    by apply lookup_app_l_Some.
  - unfold Pool.download_worker in Hstep.
    assert (∀ w, Pool.workers c1 !! j = Some w → w ≠ Pool.Died e →
                 ∀ w', <[j := w']> (Pool.workers c1) !! i = Some (Pool.Died e))
      as Hother.
    { intros w Hj Hne w'. rewrite list_lookup_insert_ne; [done |].
      intros ->. congruence. }
    destruct (Pool.workers c1 !! j) as [[| url save_path | | |]|] eqn:Hj; try done.
    + destruct (Pool.queue c1); [done |]. injection Hstep as <-. simpl.
      by eapply Hother.
    + destruct (save_file W url save_path max_size (Pool.disk c1)) as [[[ok fs] r] | e' |];
        [| | done]; injection Hstep as <-; simpl; by eapply Hother.
    + injection Hstep as <-. simpl. by eapply Hother.
Qed.

(** X23. A response whose [content-length] does not read as an integer hangs
    the program: the worker that was handed the task dies of the
    [ValueError] of line 61 without [task_done], and from then on, however
    the threads are scheduled, the main thread never gets past
    [download_queue.join()] (line 264). *)
Theorem X23_unreadable_length_hangs_the_program (W : World) (max_size : Z)
    (threads : nat) (tasks : list (string * string)) (c c1 c' : Pool.config)
    (i : nat) (url save_path : string) :
  Pool.reachable W max_size threads tasks c →
  Pool.workers c !! i = Some (Pool.AtSave url save_path) →
  length_reads W url = false →
  Pool.download_worker W max_size i c = Some c1 →
  rtc (Pool.step W max_size threads tasks) c1 c' →
  Pool.workers c1 !! i = Some (Pool.Died ValueError)
  ∧ Pool.unfinished_tasks c1 = Pool.unfinished_tasks c
  ∧ match Pool.pc c' with
    | Pool.Stopping _ | Pool.JoiningThreads _ | Pool.Finished => False
    | _ => True
    end.
Proof.
  intros Hreach Hw Hreads Hstep Hrun.
  assert (c1 = Pool.mkConfig (Pool.queue c) (Pool.unfinished_tasks c)
                 (<[i := Pool.Died ValueError]> (Pool.workers c)) (Pool.pc c)
                 (Pool.disk c) (Pool.logged c) (Pool.outcomes c)) as ->.
  { unfold Pool.download_worker in Hstep. rewrite Hw in Hstep.
    unfold save_file in Hstep. unfold length_reads in Hreads.
    destruct (requests_get W url) as [|r|r]; [done.. |]. rewrite Hreads in Hstep.
    by injection Hstep as <-. }
  assert (Pool.workers
            (Pool.mkConfig (Pool.queue c) (Pool.unfinished_tasks c)
               (<[i := Pool.Died ValueError]> (Pool.workers c)) (Pool.pc c)
               (Pool.disk c) (Pool.logged c) (Pool.outcomes c)) !! i
          = Some (Pool.Died ValueError)) as Hdied
    by (simpl; apply list_lookup_insert_eq; by eapply lookup_lt_Some).
  split; [exact Hdied |]. split; [done |].
  pose proof (died_stays _ _ _ _ _ _ _ _ Hrun Hdied) as Hstill.
  assert (Pool.reachable W max_size threads tasks c') as Hreach'.
  { unfold Pool.reachable. etrans; [exact Hreach |].
    eapply rtc_l; [by eapply Pool.step_of_worker | exact Hrun]. }
  apply reachable_invariant in Hreach'. unfold Pool.invariant in Hreach'.
  assert (∀ k, Pool.stopping threads tasks c' k → False) as Hstopping.
  { intros k (_ & Hws & _).
    by destruct (proj1 (Forall_lookup _ _) Hws i _ Hstill). }
  destruct (Pool.pc c'); try done.
  - by eapply Hstopping.
  - destruct Hreach' as [Hstop _]. by eapply Hstopping.
  - destruct Hreach' as [Hstop _]. by eapply Hstopping.
Qed.

Lemma X23_witness :
  let tasks := [("http://example.com/odd.png", "out/odd.png")] in
  let c := Pool.schedule Example.world 50 1 tasks 5 (Pool.initial 1) in
  let c1 := Pool.schedule Example.world 50 1 tasks 6 (Pool.initial 1) in
  let c' := Pool.schedule Example.world 50 1 tasks 40 (Pool.initial 1) in
  Pool.workers c1 !! 0%nat = Some (Pool.Died ValueError)
  ∧ Pool.unfinished_tasks c1 = Pool.unfinished_tasks c
  ∧ match Pool.pc c' with
    | Pool.Stopping _ | Pool.JoiningThreads _ | Pool.Finished => False
    | _ => True
    end.
Proof.
  intros tasks c c1 c'.
  apply (X23_unreadable_length_hangs_the_program Example.world 50 1 tasks c c1 c'
           0 "http://example.com/odd.png" "out/odd.png").
  - apply schedule_run.
  - vm_compute. reflexivity.
  - vm_compute. reflexivity.
  - vm_compute. reflexivity.
  - replace c' with (Pool.schedule Example.world 50 1 tasks 34 c1)
      by (vm_compute; reflexivity).
    apply schedule_run.
Defined.

(** ** [load_user_agents] and the header [User-Agent] *)

Lemma string_app_nil_r (s : string) : s +:+ "" = s.
Proof. induction s as [|a s IH]; simpl_app; [done | by rewrite IH]. Qed.

Lemma single_line_app (a b : string) :
  single_line (a +:+ b) = single_line a && single_line b.
Proof.
  induction a as [|x a IH]; simpl_app; [done |]. simpl. by rewrite IH, andb_assoc.
Qed.

Lemma rev_app_app (s acc : string) :
  String.rev_app s acc = String.rev s +:+ acc.
Proof.
  unfold String.rev. revert acc. induction s as [|a s IH]; intros acc; [done |].
  simpl. rewrite (IH (String a acc)), (IH (String a "")).
  by rewrite string_app_assoc.
Qed.

Lemma rev_cons (a : ascii) (s : string) :
  String.rev (String a s) = String.rev s +:+ String a "".
Proof. unfold String.rev at 1. simpl. apply rev_app_app. Qed.

Lemma single_line_rev (s : string) : single_line (String.rev s) = single_line s.
Proof.
  induction s as [|x s IH]; [done |].
  rewrite rev_cons, single_line_app, IH. simpl. rewrite andb_true_r. apply andb_comm.
Qed.

(** The lines [splitlines] gives hold no line boundary. *)
Lemma splitlines_from_single (line : string) (after_cr : bool) (s : string) :
  single_line line = true →
  Forall (λ l, single_line l = true) (pystr.splitlines_from line after_cr s).
Proof.
  revert line after_cr. induction s as [|a s IH]; intros line after_cr Hline; simpl.
  - destruct line; [constructor |].
    constructor; [by rewrite single_line_rev | constructor].
  - destruct (after_cr && Ascii.eqb a "010"); [by apply IH |].
    destruct (Ascii.eqb a "013") eqn:Hcr;
      [constructor; [by rewrite single_line_rev | by apply IH] |].
    destruct (pystr.linebreak a) eqn:Hbreak;
      [constructor; [by rewrite single_line_rev | by apply IH] |].
    apply IH. simpl. by rewrite Hcr, Hbreak, Hline.
Qed.

(** A line without a boundary, ended by a line feed, is read back as it is. *)
Lemma splitlines_from_line (line acc rest : string) :
  single_line line = true →
  pystr.splitlines_from acc false (line +:+ String "010" rest)
  = (String.rev acc +:+ line) :: pystr.splitlines_from "" false rest.
Proof.
  revert acc. induction line as [|a line IH]; intros acc Hline; simpl_app.
  - by rewrite string_app_nil_r.
  - simpl in Hline. apply andb_prop in Hline as [Ha Hline].
    apply negb_true_iff, orb_false_elim in Ha as [Hcr Hbreak].
    cbn [pystr.splitlines_from andb]. rewrite Hcr, Hbreak, IH by done.
    by rewrite rev_cons, string_app_assoc.
Qed.

Lemma splitlines_text_of_lines (lines : list string) :
  Forall (λ l, single_line l = true) lines →
  pystr.splitlines (text_of_lines lines) = lines.
Proof.
  unfold pystr.splitlines. induction 1 as [|line lines Hline _ IH]; [done |].
  simpl. rewrite splitlines_from_line by done. by rewrite IH.
Qed.

(** X20. No user agent that [load_user_agents] returns holds a carriage
    return, a line feed or another line boundary, whatever the file holds:
    the value put in the header [User-Agent] is a single line. *)
Theorem X20_user_agents_are_single_lines (fs : gmap string string) (file_path : string) :
  Forall (λ user_agent, single_line user_agent = true) (load_user_agents fs file_path).1.
Proof.
  unfold load_user_agents. destruct (fs !! file_path) as [content |]; simpl.
  - by apply splitlines_from_single.
  - constructor.
Qed.

(** X21. A file written with one user agent on each line, each line ended by
    a line feed, is read back as the list of those user agents, in order and
    with nothing logged. *)
Theorem X21_load_user_agents_reads_back_the_lines (fs : gmap string string)
    (file_path : string) (lines : list string) :
  Forall (λ line, single_line line = true) lines →
  fs !! file_path = Some (text_of_lines lines) →
  load_user_agents fs file_path = (lines, false).
Proof.
  intros Hlines Hfile. unfold load_user_agents. rewrite Hfile.
  by rewrite splitlines_text_of_lines.
Qed.

Lemma X21_witness :
  load_user_agents {[ "agents.txt" := text_of_lines ["Mozilla/5.0"; ""; "curl/8.0"] ]}
    "agents.txt"
  = (["Mozilla/5.0"; ""; "curl/8.0"], false).
Proof.
  apply (X21_load_user_agents_reads_back_the_lines
           {[ "agents.txt" := text_of_lines ["Mozilla/5.0"; ""; "curl/8.0"] ]}
           "agents.txt" ["Mozilla/5.0"; ""; "curl/8.0"]).
  - by repeat constructor.
  - reflexivity.
Defined.

Lemma random_choice_None (pick : nat) (seq : list string) :
  random_choice pick seq = None ↔ seq = [].
Proof.
  split; [| by intros ->]. destruct seq as [|x seq]; [done |]. unfold random_choice.
  intros Hnone%lookup_ge_None. simpl in Hnone.
  pose proof (Nat.mod_upper_bound pick (S (length seq)) ltac:(lia)). lia.
Qed.

(** X22. With [--random-user-agent] and a [--user-agent-file], [main] ends
    with the [IndexError] of [random.choice] exactly when the file is missing
    or holds no line; otherwise the header is one of the lines of the file.
    The list built into [main] is not fallen back on. *)
Theorem X22_missing_user_agent_file_raises (user_agent file_path : string)
    (fs : gmap string string) (pick : nat) :
  file_path ≠ "" →
  (user_agent_header user_agent true (Some file_path) fs pick = None
   ↔ fs !! file_path = None ∨ ∃ content, fs !! file_path = Some content
                                         ∧ pystr.splitlines content = [])
  ∧ ∀ chosen, user_agent_header user_agent true (Some file_path) fs pick = Some chosen →
              ∃ content, fs !! file_path = Some content
                         ∧ chosen ∈ pystr.splitlines content.
Proof.
  intros Hfile. unfold user_agent_header.
  destruct file_path as [|a file_path]; [done |]. cbn [pystr.truthy].
  unfold load_user_agents.
  destruct (fs !! String a file_path) as [content |] eqn:Hcontent; simpl.
  - split.
    + rewrite random_choice_None. split; [by eauto |].
      intros [? | (content' & [= <-] & Hnone)]; done.
    + intros chosen Hchosen. exists content. split; [done |].
      unfold random_choice in Hchosen.
      destruct (pystr.splitlines content); [done |].
      by eapply list_elem_of_lookup_2.
  - split; [split; [by left | done] | done].
Qed.

Lemma X22_witness :
  (user_agent_header "Mozilla/5.0" true (Some "agents.txt") ∅ 0 = None
   ↔ (∅ : gmap string string) !! "agents.txt" = None
     ∨ ∃ content, (∅ : gmap string string) !! "agents.txt" = Some content
                  ∧ pystr.splitlines content = [])
  ∧ ∀ chosen, user_agent_header "Mozilla/5.0" true (Some "agents.txt") ∅ 0 = Some chosen →
              ∃ content, (∅ : gmap string string) !! "agents.txt" = Some content
                         ∧ chosen ∈ pystr.splitlines content.
Proof.
  apply (X22_missing_user_agent_file_raises "Mozilla/5.0" "agents.txt" ∅ 0).
  discriminate.
Defined.
